(** * Rendezvous service descriptors: codec and cache ([src/or/rendcommon.c])

    A shallow embedding of the descriptor encoder, the descriptor parser, the
    service-ID function and the descriptor cache of [rendcommon.c], and the
    properties of them that the specification states.

    Conventions of the embedding.
    - A buffer [(const char *str, int len)] is a [list byte]; [len] is its
      length.  Pointer differences such as [end-cp] are lengths of suffixes.
    - C [int] values are in [Z].  [time_t] is in [Z] as well (a 64-bit
      [time_t]: sums such as [now+REND_CACHE_MAX_SKEW] do not wrap); the casts
      to the 16- and 32-bit wire fields are written out as [mod].
    - The crypto layer ([crypto.c]) is an interface, [Crypto]; the functions
      here are parametric in it.
    - The process-wide [rend_cache] and the clock [time(NULL)] are passed
      explicitly: a cache operation takes the cache and [now] and returns the
      new cache next to its C return value.  [rend_cache_store] takes the
      clock readings of one call as one instant, [now];
      [rend_cache_store_clock] keeps the later reading, the one stored in
      [received], apart from the one the freshness tests use. *)

From Stdlib Require Import ZArith Lia Ascii String.
From Stdlib.Strings Require Import Byte.
From stdpp Require Import base tactics option list gmap strings fin_maps.

Local Open Scope Z_scope.

(** ** Bytes and big-endian fields *)

#[global] Instance byte_eq_dec : EqDecision byte := Byte.byte_eq_dec.

Definition Z_of_byte (b : byte) : Z := Z.of_N (Byte.to_N b).

(** Storing an integer into a [char]: the value modulo 256. *)
Definition byte_of_Z (z : Z) : byte :=
  match Byte.of_N (Z.to_N (z mod 256)) with
  | Some b => b
  | None => x00
  end.

(** [set_uint16(cp, htons((uint16_t)v))]: the two bytes written. *)
Definition set_uint16_htons (v : Z) : list byte :=
  let u := v mod 65536 in
  [byte_of_Z (u / 256); byte_of_Z u].

(** [set_uint32(cp, htonl((uint32_t)v))]: the four bytes written. *)
Definition set_uint32_htonl (v : Z) : list byte :=
  let u := v mod 4294967296 in
  [byte_of_Z (u / 16777216); byte_of_Z (u / 65536);
   byte_of_Z (u / 256); byte_of_Z u].

(** [ntohs(get_uint16(cp))]; the caller has checked that two bytes remain. *)
Definition ntohs_get_uint16 (cp : list byte) : Z :=
  match cp with
  | b0 :: b1 :: _ => 256 * Z_of_byte b0 + Z_of_byte b1
  | _ => 0
  end.

(** [ntohl(get_uint32(cp))]; the caller has checked that four bytes remain. *)
Definition ntohl_get_uint32 (cp : list byte) : Z :=
  match cp with
  | b0 :: b1 :: b2 :: b3 :: _ =>
      16777216 * Z_of_byte b0 + 65536 * Z_of_byte b1
      + 256 * Z_of_byte b2 + Z_of_byte b3
  | _ => 0
  end.

(** [memchr(cp, '\0', n)] over the whole remaining buffer: the offset of the
    first NUL byte, if there is one. *)
Fixpoint memchr_nul (cp : list byte) : option nat :=
  match cp with
  | [] => None
  | b :: cp' => if decide (b = x00) then Some O else S <$> memchr_nul cp'
  end.

(** The content of a C string held in a [char] array: the bytes before the
    first NUL (all of them when the model list holds none). *)
Definition c_str (s : list byte) : list byte :=
  match memchr_nul s with
  | Some i => take i s
  | None => s
  end.

Definition strlen (s : list byte) : Z := Z.of_nat (length (c_str s)).

(** ** The crypto layer

    The calls [rendcommon.c] makes into [crypto.c] and [util.c], with the
    results it inspects: a negative return or a NULL pointer is [None]. *)
Class Crypto := {
  (** [crypto_pk_env_t]: a public key, or a key pair. *)
  crypto_pk_env_t : Type;
  (** modulus length in bytes *)
  crypto_pk_keysize : crypto_pk_env_t → Z;
  (** [crypto_pk_asn1_encode(pk, buf, cap)]: the bytes written to [buf] *)
  crypto_pk_asn1_encode : crypto_pk_env_t → Z → option (list byte);
  (** [crypto_pk_asn1_decode(cp, len)]: the key, or NULL *)
  crypto_pk_asn1_decode : list byte → option crypto_pk_env_t;
  (** [crypto_pk_private_sign_digest(key, data, datalen, out)]: the signature
      written to [out] *)
  crypto_pk_private_sign_digest :
    crypto_pk_env_t → list byte → option (list byte);
  (** [crypto_pk_public_checksig_digest(pk, data, datalen, sig, siglen) >= 0] *)
  crypto_pk_public_checksig_digest :
    crypto_pk_env_t → list byte → list byte → bool;
  (** [crypto_pk_get_digest(pk, buf)]: the [DIGEST_LEN] bytes written *)
  crypto_pk_get_digest : crypto_pk_env_t → option (list byte);
  (** [base32_encode(out, outlen, src, srclen)]: the string written to [out] *)
  base32_encode : Z → list byte → option string
}.

(** ** Descriptors ([rend_service_descriptor_t]) *)

Record rend_service_descriptor_t `{Crypto} := {
  pk : crypto_pk_env_t;
  timestamp : Z;
  n_intro_points : Z;
  intro_points : list (list byte)
}.

Inductive encode_result :=
| EncodeOk (str_out : list byte) (len_out : Z)  (* return 0 *)
| EncodeFail                                    (* return -1 *)
| EncodeAssertFail.                             (* tor_assert fails *)

(** The tag of a parse failure: the [goto] target and the message logged on
    the way to [return NULL]. *)
Inductive parse_error :=
| Truncated      (* goto truncated: "Truncated service descriptor" *)
| TrailingJunk   (* "Signature too long on service descriptor" *)
| BadSignature.  (* "Bad signature on service descriptor" *)

Inductive parse_result `{Crypto} :=
| ParseOk (result : rend_service_descriptor_t)
| ParseErr (e : parse_error).

Section Codec.
Context `{Crypto}.

(** The intro points the loops [for (i=0; i < desc->n_intro_points; ++i)]
    visit.  (With a count beyond the array the C loop reads out of bounds;
    the model stops at the end of the array.) *)
Definition visited_intro_points (desc : rend_service_descriptor_t)
  : list (list byte) :=
  take (Z.to_nat (n_intro_points desc)) (intro_points desc).

(** [strcpy(cp, ipoint); cp += strlen(ipoint)+1] for each intro point. *)
Definition encode_intro_points (ips : list (list byte)) : list byte :=
  concat (map (λ ipoint, c_str ipoint ++ [x00]) ips).

(** Everything [rend_encode_service_descriptor] writes before it signs. *)
Definition encode_payload (desc : rend_service_descriptor_t)
    (asn1 : list byte) : list byte :=
  set_uint16_htons (Z.of_nat (length asn1))
  ++ asn1
  ++ set_uint32_htonl (timestamp desc)
  ++ set_uint16_htons (n_intro_points desc)
  ++ encode_intro_points (visited_intro_points desc).

Definition rend_encode_service_descriptor
    (desc : rend_service_descriptor_t) (key : crypto_pk_env_t)
  : encode_result :=
  let keylen := crypto_pk_keysize (pk desc) in
  match crypto_pk_asn1_encode (pk desc) (keylen * 2) with
  | None => EncodeFail
  | Some buf =>
      let asn1len := Z.of_nat (length buf) in
      let len_out :=
        fold_left (λ acc ipoint, acc + (strlen ipoint + 1))
          (visited_intro_points desc) (2 + asn1len + 4 + 2 + keylen) in
      let payload := encode_payload desc buf in
      match crypto_pk_private_sign_digest key payload with
      | None => EncodeFail
      | Some sig =>
          if decide (len_out = Z.of_nat (length payload + length sig))
          then EncodeOk (payload ++ sig) len_out
          else EncodeAssertFail
      end
  end.

(** The loop over the intro points of [rend_parse_service_descriptor]:
    [n] iterations from [cp]; the strings read and the position reached, or
    [None] for [goto truncated]. *)
Fixpoint parse_intro_points (n : nat) (cp : list byte)
  : option (list (list byte) * list byte) :=
  match n with
  | O => Some ([], cp)
  | S n' =>
      if decide (Z.of_nat (length cp) < 2) then None
      else match memchr_nul cp with
           | None => None
           | Some eos =>
               match parse_intro_points n' (drop (S eos) cp) with
               | None => None
               | Some (ips, cp') => Some (c_str cp :: ips, cp')
               end
           end
  end.

Definition rend_parse_service_descriptor (str : list byte) : parse_result :=
  let cp := str in
  if decide (Z.of_nat (length cp) < 2) then ParseErr Truncated else
  let asn1len := ntohs_get_uint16 cp in
  let cp := drop 2 cp in
  if decide (Z.of_nat (length cp) < asn1len) then ParseErr Truncated else
  match crypto_pk_asn1_decode (take (Z.to_nat asn1len) cp) with
  | None => ParseErr Truncated
  | Some key =>
      let cp := drop (Z.to_nat asn1len) cp in
      if decide (Z.of_nat (length cp) < 4) then ParseErr Truncated else
      let ts := ntohl_get_uint32 cp in
      let cp := drop 4 cp in
      if decide (Z.of_nat (length cp) < 2) then ParseErr Truncated else
      let n := ntohs_get_uint16 cp in
      let cp := drop 2 cp in
      match parse_intro_points (Z.to_nat n) cp with
      | None => ParseErr Truncated
      | Some (ips, cp) =>
          let keylen := crypto_pk_keysize key in
          if decide (Z.of_nat (length cp) < keylen) then ParseErr Truncated
          else if decide (Z.of_nat (length cp) > keylen)
          then ParseErr TrailingJunk
          else if crypto_pk_public_checksig_digest key
                    (take (length str - length cp)%nat str) cp
          then ParseOk {| pk := key; timestamp := ts;
                          n_intro_points := n; intro_points := ips |}
          else ParseErr BadSignature
      end
  end.
End Codec.

(** ** Service IDs *)

(** Service IDs and cache keys are C strings of printable characters; they are
    modelled as [string], the characters before the terminating NUL, so that
    the C [strlen] is [String.length]. *)

(** Modelled from the spec: [REND_SERVICE_ID_LEN] is a macro of [or.h], which
    is not among the sources; the spec fixes [SID_LEN = 16]. *)
Definition REND_SERVICE_ID_LEN : Z := 16.

(** Modelled from the spec: [BASE32_CHARS] is a macro of [util.h], which is not
    among the sources; the spec gives the alphabet as the lowercase letters
    and the digits 2 to 7. *)
Definition BASE32_CHARS : string := "abcdefghijklmnopqrstuvwxyz234567".

Definition REND_CACHE_MAX_AGE : Z := 24 * 60 * 60.
Definition REND_CACHE_MAX_SKEW : Z := 90 * 60.

Fixpoint strchr (accept : string) (c : ascii) : bool :=
  match accept with
  | EmptyString => false
  | String a accept' => if decide (a = c) then true else strchr accept' c
  end.

(** [strspn(s, accept)]: the length of the longest prefix of [s] made of
    characters of [accept]. *)
Fixpoint strspn (s accept : string) : Z :=
  match s with
  | EmptyString => 0
  | String c s' => if strchr accept c then 1 + strspn s' accept else 0
  end.

(** C [tolower] in the "C" locale. *)
Definition tolower (c : ascii) : ascii :=
  let n := nat_of_ascii c in
  if ((65 <=? n) && (n <=? 90))%nat then ascii_of_nat (n + 32) else c.

Fixpoint tor_strlower (s : string) : string :=
  match s with
  | EmptyString => EmptyString
  | String c s' => String (tolower c) (tor_strlower s')
  end.

(** Modelled from the spec: [strmap_get_lc] and [strmap_set_lc] belong to the
    string-map container of [util.c], which is not among the sources; by the
    spec, cache lookups and stores compare service IDs case-insensitively and
    the stored form of a key is its lowercase form. *)
Definition strmap_get_lc {A} (map : gmap string A) (key : string) : option A :=
  map !! tor_strlower key.

Definition strmap_set_lc {A} (map : gmap string A) (key : string) (val : A)
  : gmap string A :=
  <[tor_strlower key := val]> map.

(** ** The descriptor cache *)

Record rend_cache_entry_t `{Crypto} := {
  len : Z;
  desc : list byte;
  received : Z;
  parsed : rend_service_descriptor_t
}.

Section Cache.
Context `{Crypto}.

Definition rend_get_service_id (key : crypto_pk_env_t) : option string :=
  match crypto_pk_get_digest key with
  | None => None
  | Some buf => base32_encode (REND_SERVICE_ID_LEN + 1) (take 10 buf)
  end.

(** [rend_cache_init]: [strmap_new()]. *)
Definition rend_cache_init : gmap string rend_cache_entry_t := ∅.

(** One step of the loop of [rend_cache_clean] at the entry [(key, ent)]:
    [strmap_iter_next_rmv] removes it from the map, [strmap_iter_next]
    leaves the map alone. *)
Definition rend_cache_clean_step (cutoff : Z) (key : string)
    (ent : rend_cache_entry_t) (rend_cache : gmap string rend_cache_entry_t)
  : gmap string rend_cache_entry_t :=
  if decide (timestamp (parsed ent) < cutoff) then delete key rend_cache
  else rend_cache.

(** [rend_cache_clean] with [time(NULL) = now]: the iterator visits every
    entry of the map once. *)
Definition rend_cache_clean (now : Z)
    (rend_cache : gmap string rend_cache_entry_t)
  : gmap string rend_cache_entry_t :=
  let cutoff := now - REND_CACHE_MAX_AGE in
  map_fold (rend_cache_clean_step cutoff) rend_cache rend_cache.

Definition rend_valid_service_id (query : string) : bool :=
  if decide (Z.of_nat (String.length query) ≠ REND_SERVICE_ID_LEN) then false
  else if decide (strspn query BASE32_CHARS ≠ REND_SERVICE_ID_LEN) then false
  else true.

(** [rend_cache_lookup_entry]: the return value and the entry [*e] is set
    to ([None]: left unset or set to NULL). *)
Definition rend_cache_lookup_entry (query : string)
    (rend_cache : gmap string rend_cache_entry_t)
  : Z * option rend_cache_entry_t :=
  if negb (rend_valid_service_id query) then (-1, None)
  else match strmap_get_lc rend_cache query with
       | None => (0, None)
       | Some e => (1, Some e)
       end.

(** [rend_cache_lookup_desc]: the return value and [( *desc, *desc_len )]
    when they are set. *)
Definition rend_cache_lookup_desc (query : string)
    (rend_cache : gmap string rend_cache_entry_t)
  : Z * option (list byte * Z) :=
  match rend_cache_lookup_entry query rend_cache with
  | (r, Some e) => if decide (r <= 0) then (r, None)
                   else (1, Some (desc e, len e))
  | (r, None) => (r, None)
  end.

(** [e->len == desc_len && !memcmp(desc, e->desc, desc_len)] *)
Definition same_bytes (e : rend_cache_entry_t) (d : list byte) : Prop :=
  len e = Z.of_nat (length d)
  ∧ take (length d) d = take (length d) (desc e).

#[global] Instance same_bytes_dec e d : Decision (same_bytes e d).
Proof. unfold same_bytes. apply _. Defined.

(** [rend_cache_store(desc, desc_len)] with [time(NULL) = now]: the return
    value and the cache afterwards.  The call reads the clock twice, for
    the freshness tests and again for [received]; here both readings are
    [now].  [rend_cache_store_clock] below keeps them apart. *)
Definition rend_cache_store (now : Z) (d : list byte)
    (rend_cache : gmap string rend_cache_entry_t)
  : Z * gmap string rend_cache_entry_t :=
  let desc_len := Z.of_nat (length d) in
  match rend_parse_service_descriptor d with
  | ParseErr _ => (-1, rend_cache)
  | ParseOk p =>
      match rend_get_service_id (pk p) with
      | None => (-1, rend_cache)
      | Some query =>
          if decide (timestamp p < now - REND_CACHE_MAX_AGE)
          then (-1, rend_cache)
          else if decide (timestamp p > now + REND_CACHE_MAX_SKEW)
          then (-1, rend_cache)
          else
            match strmap_get_lc rend_cache query with
            | Some e =>
                if decide (timestamp (parsed e) > timestamp p)
                then (0, rend_cache)
                else if decide (same_bytes e d)
                then (0, strmap_set_lc rend_cache query
                           {| len := len e; desc := desc e;
                              received := now; parsed := parsed e |})
                else (0, strmap_set_lc rend_cache query
                           {| len := desc_len; desc := d;
                              received := now; parsed := p |})
            | None =>
                (0, strmap_set_lc rend_cache query
                      {| len := desc_len; desc := d;
                         received := now; parsed := p |})
            end
      end
  end.

(** A sequence of [rend_cache_store] calls, each with its own clock reading
    and bytes: the return values in call order and the final cache. *)
Fixpoint rend_cache_store_seq (calls : list (Z * list byte))
    (rend_cache : gmap string rend_cache_entry_t)
  : list Z * gmap string rend_cache_entry_t :=
  match calls with
  | [] => ([], rend_cache)
  | (now, d) :: calls' =>
      let '(r, rend_cache') := rend_cache_store now d rend_cache in
      let '(rs, rend_cache'') := rend_cache_store_seq calls' rend_cache' in
      (r :: rs, rend_cache'')
  end.

(** The two operations that change the cache, and a run of them from a given
    cache (the return values of the stores are dropped). *)
Inductive cache_call :=
| CallStore (now : Z) (d : list byte)
| CallClean (now : Z).

Definition rend_cache_call (call : cache_call)
    (rend_cache : gmap string rend_cache_entry_t)
  : gmap string rend_cache_entry_t :=
  match call with
  | CallStore now d => (rend_cache_store now d rend_cache).2
  | CallClean now => rend_cache_clean now rend_cache
  end.

Definition rend_cache_run (calls : list cache_call)
    (rend_cache : gmap string rend_cache_entry_t)
  : gmap string rend_cache_entry_t :=
  fold_left (λ acc call, rend_cache_call call acc) calls rend_cache.
End Cache.

(** ** A small instance of the crypto layer

    Enough of a crypto layer to run the codec and the cache on concrete
    inputs: keys are single bytes with a 4-byte "modulus", the ASN.1 form of
    a key is a two-byte tag-and-value, a signature is a 32-bit checksum of
    key and data, the digest of a key is 20 bytes derived from it, and
    [base32_encode] is the real encoding over [BASE32_CHARS]. *)
Module Toy.
Definition keysize (k : byte) : Z := 4.

Definition asn1_encode (k : byte) (cap : Z) : option (list byte) :=
  if decide (cap < 2) then None else Some [x30; k].

Definition asn1_decode (buf : list byte) : option byte :=
  match buf with
  | [t; k] => if decide (t = x30) then Some k else None
  | _ => None
  end.

Definition checksum (k : byte) (data : list byte) : list byte :=
  set_uint32_htonl
    (fold_left (λ acc b, (acc * 31 + Z_of_byte b + 7) mod 4294967296)
       data (Z_of_byte k)).

Definition sign (k : byte) (data : list byte) : option (list byte) :=
  Some (checksum k data).

Definition checksig (k : byte) (data sig : list byte) : bool :=
  bool_decide (sig = checksum k data).

Definition digest (k : byte) : option (list byte) :=
  Some (map (λ i, byte_of_Z (Z_of_byte k * 7 + i * 29)) (seqZ 0 20)).

(** The value of a byte string read as one big-endian number. *)
Definition be_value (src : list byte) : Z :=
  fold_left (λ acc b, acc * 256 + Z_of_byte b) src 0.

Definition base32_char (v : Z) : ascii :=
  default "a"%char (String.get (Z.to_nat v) BASE32_CHARS).

Definition base32 (destlen : Z) (src : list byte) : option string :=
  let nbits := Z.of_nat (length src) * 8 in
  if decide (nbits mod 5 ≠ 0) then None
  else if decide (nbits / 5 + 1 > destlen) then None
  else
    let v := be_value src in
    Some (string_of_list_ascii
            (map (λ i, base32_char (Z.land (Z.shiftr v (nbits - 5 * (i + 1))) 31))
               (seqZ 0 (nbits / 5)))).

#[export] Instance crypto : Crypto := {|
  crypto_pk_env_t := byte;
  crypto_pk_keysize := keysize;
  crypto_pk_asn1_encode := asn1_encode;
  crypto_pk_asn1_decode := asn1_decode;
  crypto_pk_private_sign_digest := sign;
  crypto_pk_public_checksig_digest := checksig;
  crypto_pk_get_digest := digest;
  base32_encode := base32
|}.

(** The same layer with a digest function that reports failure. *)
Definition crypto_no_digest : Crypto := {|
  crypto_pk_env_t := byte;
  crypto_pk_keysize := keysize;
  crypto_pk_asn1_encode := asn1_encode;
  crypto_pk_asn1_decode := asn1_decode;
  crypto_pk_private_sign_digest := sign;
  crypto_pk_public_checksig_digest := checksig;
  crypto_pk_get_digest := λ _, None;
  base32_encode := base32
|}.

(** Intro point names as bytes. *)
Definition alice : list byte := [x61; x6c; x69; x63; x65].
Definition bob : list byte := [x62; x6f; x62].
Definition carol : list byte := [x63; x61; x72; x6f; x6c].

Definition descriptor (k : byte) (ts : Z) (ips : list (list byte))
  : @rend_service_descriptor_t crypto :=
  {| pk := k; timestamp := ts;
     n_intro_points := Z.of_nat (length ips); intro_points := ips |}.

(** The bytes [rend_encode_service_descriptor] produces ([[]] on failure). *)
Definition encoded (d : @rend_service_descriptor_t crypto) : list byte :=
  match rend_encode_service_descriptor d (pk d) with
  | EncodeOk str_out _ => str_out
  | _ => []
  end.

(** Three descriptors of the key [A]: two with timestamp 1000000 and
    different intro points, one ten seconds newer. *)
Definition parsed_ab := descriptor x41 1000000 [alice; bob].
Definition parsed_c := descriptor x41 1000000 [carol].
Definition parsed_newer := descriptor x41 1000010 [alice; bob].
Definition desc_ab : list byte := encoded parsed_ab.
Definition desc_c : list byte := encoded parsed_c.
Definition desc_newer : list byte := encoded parsed_newer.

(** The service ID of the key [A]. *)
Definition service_id : string := "y7sachr3lb2zfl6m".

(** The entry [rend_cache_store] makes of [desc_ab] at time [now]. *)
Definition entry_ab (now : Z) : @rend_cache_entry_t crypto :=
  {| len := 24; desc := desc_ab; received := now; parsed := parsed_ab |}.
End Toy.


(** The steps of [rend_parse_service_descriptor] before the loop over the
    intro points: the key, the timestamp, the count and the position reached,
    or [None] for [goto truncated]. *)
Definition parse_header `{Crypto} (str : list byte)
  : option (crypto_pk_env_t * Z * Z * list byte) :=
  let cp := str in
  if decide (Z.of_nat (length cp) < 2) then None else
  let asn1len := ntohs_get_uint16 cp in
  let cp := drop 2 cp in
  if decide (Z.of_nat (length cp) < asn1len) then None else
  match crypto_pk_asn1_decode (take (Z.to_nat asn1len) cp) with
  | None => None
  | Some key =>
      let cp := drop (Z.to_nat asn1len) cp in
      if decide (Z.of_nat (length cp) < 4) then None else
      let ts := ntohl_get_uint32 cp in
      let cp := drop 4 cp in
      if decide (Z.of_nat (length cp) < 2) then None else
      Some (key, ts, ntohs_get_uint16 cp, drop 2 cp)
  end.

(** The steps of [rend_parse_service_descriptor] after the loop, at [cp]. *)
Definition parse_tail `{Crypto} (str : list byte) (key : crypto_pk_env_t)
    (ts n : Z) (ips : list (list byte)) (cp : list byte) : parse_result :=
  let keylen := crypto_pk_keysize key in
  if decide (Z.of_nat (length cp) < keylen) then ParseErr Truncated
  else if decide (Z.of_nat (length cp) > keylen) then ParseErr TrailingJunk
  else if crypto_pk_public_checksig_digest key
            (take (length str - length cp)%nat str) cp
  then ParseOk {| pk := key; timestamp := ts;
                  n_intro_points := n; intro_points := ips |}
  else ParseErr BadSignature.

(** ** Well-formed descriptors, matching keys, well-formed caches *)

Section Validity.
Context `{Crypto}.

(** The invariant of the data model: the count is the length of the array
    of intro points and fits an unsigned 16-bit integer, and the intro
    points are C strings (no NUL inside). *)
Definition descriptor_wf (d : rend_service_descriptor_t) : Prop :=
  n_intro_points d = Z.of_nat (length (intro_points d))
  ∧ n_intro_points d < 65536
  ∧ Forall (Forall (λ b, b ≠ x00)) (intro_points d).

(** [key] is the private half of the public key of [d]: the public key
    goes through ASN.1 and back (in at most 65535 bytes), has a modulus of
    at least one byte, and the signature [key] makes of the payload of [d]
    is as long as the modulus and checks against the public key. *)
Definition signing_key_of (d : rend_service_descriptor_t)
    (key : crypto_pk_env_t) : Prop :=
  ∃ asn1 sig,
    crypto_pk_asn1_encode (pk d) (crypto_pk_keysize (pk d) * 2) = Some asn1
    ∧ Z.of_nat (length asn1) < 65536
    ∧ crypto_pk_asn1_decode asn1 = Some (pk d)
    ∧ 0 < crypto_pk_keysize (pk d)
    ∧ crypto_pk_private_sign_digest key (encode_payload d asn1) = Some sig
    ∧ Z.of_nat (length sig) = crypto_pk_keysize (pk d)
    ∧ crypto_pk_public_checksig_digest (pk d) (encode_payload d asn1) sig
      = true.

(** The bytes [d] present a descriptor of the service [query]. *)
Definition presents (query : string) (d : list byte) : Prop :=
  ∃ p, rend_parse_service_descriptor d = ParseOk p
       ∧ rend_get_service_id (pk p) = Some query.

(** The timestamp of the descriptor the bytes [d] hold. *)
Definition descriptor_timestamp (d : list byte) : Z :=
  match rend_parse_service_descriptor d with
  | ParseOk p => timestamp p
  | ParseErr _ => 0
  end.

(** The timestamps of the calls of a sequence that returned 0. *)
Fixpoint accepted_timestamps (calls : list (Z * list byte)) (rs : list Z)
  : list Z :=
  match calls, rs with
  | (_, d) :: calls', r :: rs' =>
      if decide (r = 0)
      then descriptor_timestamp d :: accepted_timestamps calls' rs'
      else accepted_timestamps calls' rs'
  | _, _ => []
  end.

(** What [rend_cache_store] establishes of an entry it files under [key]:
    [len] is the length of [desc], [parsed] is what [desc] parses to, and
    [key] is the lowercase service ID of the parsed key. *)
Definition entry_wf (key : string) (e : rend_cache_entry_t) : Prop :=
  len e = Z.of_nat (length (desc e))
  ∧ rend_parse_service_descriptor (desc e) = ParseOk (parsed e)
  ∧ ∃ query, rend_get_service_id (pk (parsed e)) = Some query
             ∧ tor_strlower query = key.

Definition cache_wf (rend_cache : gmap string rend_cache_entry_t) : Prop :=
  ∀ key e, rend_cache !! key = Some e → entry_wf key e.

(** The entry of [query], as the running maximum of the timestamps [acc]
    accepted for it so far: no entry while nothing was accepted; otherwise
    an entry made from its bytes whose timestamp is the greatest of [acc]. *)
Definition tracks_maximum (rend_cache : gmap string rend_cache_entry_t)
    (query : string) (acc : list Z) : Prop :=
  match strmap_get_lc rend_cache query with
  | None => acc = []
  | Some e =>
      len e = Z.of_nat (length (desc e))
      ∧ rend_parse_service_descriptor (desc e) = ParseOk (parsed e)
      ∧ timestamp (parsed e) ∈ acc
      ∧ ∀ t, t ∈ acc → t <= timestamp (parsed e)
  end.
End Validity.

(** ** The fresh calls of a sequence *)

Section Fresh.
Context `{Crypto}.

(** The timestamps of the calls [(now, d)] of a sequence whose descriptor is
    inside the freshness window at the time of the call,
    [now - 86400 <= timestamp <= now + 5400], in call order: read off the
    calls and the parser alone. *)
Fixpoint fresh_timestamps (calls : list (Z * list byte)) : list Z :=
  match calls with
  | [] => []
  | (now, d) :: calls' =>
      if decide (now - 86400 <= descriptor_timestamp d <= now + 5400)
      then descriptor_timestamp d :: fresh_timestamps calls'
      else fresh_timestamps calls'
  end.

(** The return values such a sequence is to give: 0 for a call inside the
    window, -1 for a call outside it. *)
Fixpoint fresh_returns (calls : list (Z * list byte)) : list Z :=
  match calls with
  | [] => []
  | (now, d) :: calls' =>
      (if decide (now - 86400 <= descriptor_timestamp d <= now + 5400)
       then 0 else -1) :: fresh_returns calls'
  end.
End Fresh.

(** A descriptor of a second key of the small crypto layer, [B]. *)
Definition toy_parsed_other : @rend_service_descriptor_t Toy.crypto :=
  Toy.descriptor x42 1000000 [Toy.carol].
Definition toy_desc_other : list byte := Toy.encoded toy_parsed_other.

(** ** The clock inside a store *)

Section Clock.
Context `{Crypto}.

(** [rend_cache_store] with the clock readings of one call kept apart:
    [now] is the reading of [now = time(NULL)], which the freshness tests
    use; [now'] is the reading of the later [e->received = time(NULL)], of
    which a call executes one, in the duplicate refresh or when it files
    the descriptor. *)
Definition rend_cache_store_clock (now now' : Z) (d : list byte)
    (rend_cache : gmap string rend_cache_entry_t)
  : Z * gmap string rend_cache_entry_t :=
  let desc_len := Z.of_nat (length d) in
  match rend_parse_service_descriptor d with
  | ParseErr _ => (-1, rend_cache)
  | ParseOk p =>
      match rend_get_service_id (pk p) with
      | None => (-1, rend_cache)
      | Some query =>
          if decide (timestamp p < now - REND_CACHE_MAX_AGE)
          then (-1, rend_cache)
          else if decide (timestamp p > now + REND_CACHE_MAX_SKEW)
          then (-1, rend_cache)
          else
            match strmap_get_lc rend_cache query with
            | Some e =>
                if decide (timestamp (parsed e) > timestamp p)
                then (0, rend_cache)
                else if decide (same_bytes e d)
                then (0, strmap_set_lc rend_cache query
                           {| len := len e; desc := desc e;
                              received := now'; parsed := parsed e |})
                else (0, strmap_set_lc rend_cache query
                           {| len := desc_len; desc := d;
                              received := now'; parsed := p |})
            | None =>
                (0, strmap_set_lc rend_cache query
                      {| len := desc_len; desc := d;
                         received := now'; parsed := p |})
            end
      end
  end.

(** The operations that change the cache, a store with its two clock
    readings, and a run of them from a given cache. *)
Inductive cache_call_clock :=
| ClockStore (now now' : Z) (d : list byte)
| ClockClean (now : Z).

Definition rend_cache_call_clock (call : cache_call_clock)
    (rend_cache : gmap string rend_cache_entry_t)
  : gmap string rend_cache_entry_t :=
  match call with
  | ClockStore now now' d => (rend_cache_store_clock now now' d rend_cache).2
  | ClockClean now => rend_cache_clean now rend_cache
  end.

Definition rend_cache_run_clock (calls : list cache_call_clock)
    (rend_cache : gmap string rend_cache_entry_t)
  : gmap string rend_cache_entry_t :=
  fold_left (λ acc call, rend_cache_call_clock call acc) calls rend_cache.

(** The clock of a store does not run backwards between its two readings
    and advances by at most [tick] seconds. *)
Definition clock_within (tick : Z) (call : cache_call_clock) : Prop :=
  match call with
  | ClockStore now now' _ => now <= now' <= now + tick
  | ClockClean _ => True
  end.
End Clock.

(** ** The rendezvous relay-cell dispatcher *)

(** The [RELAY_COMMAND_*] codes are macros of [or.h], which is not among the
    sources: they are parameters of the dispatcher. *)
Class RelayCommands := {
  RELAY_COMMAND_ESTABLISH_INTRO : Z;
  RELAY_COMMAND_ESTABLISH_RENDEZVOUS : Z;
  RELAY_COMMAND_INTRODUCE1 : Z;
  RELAY_COMMAND_INTRODUCE2 : Z;
  RELAY_COMMAND_INTRODUCE_ACK : Z;
  RELAY_COMMAND_RENDEZVOUS1 : Z;
  RELAY_COMMAND_RENDEZVOUS2 : Z;
  RELAY_COMMAND_INTRO_ESTABLISHED : Z;
  RELAY_COMMAND_RENDEZVOUS_ESTABLISHED : Z
}.

(** The handlers of the other rendezvous modules, which
    [rend_process_relay_cell] calls with [(circ, payload, length)]: each acts
    on the state [St] of the rest of the program and returns a status. *)
Class RendHandlers (circuit_t St : Type) := {
  rend_mid_establish_intro : circuit_t → list byte → Z → St → Z * St;
  rend_mid_establish_rendezvous : circuit_t → list byte → Z → St → Z * St;
  rend_mid_introduce : circuit_t → list byte → Z → St → Z * St;
  rend_service_introduce : circuit_t → list byte → Z → St → Z * St;
  rend_client_introduction_acked : circuit_t → list byte → Z → St → Z * St;
  rend_mid_rendezvous : circuit_t → list byte → Z → St → Z * St;
  rend_client_receive_rendezvous : circuit_t → list byte → Z → St → Z * St;
  rend_service_intro_established : circuit_t → list byte → Z → St → Z * St;
  rend_client_rendezvous_acked : circuit_t → list byte → Z → St → Z * St
}.

(** [rend_process_relay_cell(circ, command, length, payload)]: the state
    after the call; [None] when [tor_assert(0)] ends the process.  The status
    [r] of the handler is assigned and not used.  (The [case] labels of a C
    [switch] are distinct, so testing them in order is the [switch].) *)
Definition rend_process_relay_cell `{RelayCommands}
    `{RendHandlers circuit_t St}
    (circ : circuit_t) (command length : Z) (payload : list byte) (st : St)
  : option St :=
  if decide (command = RELAY_COMMAND_ESTABLISH_INTRO)
  then Some (rend_mid_establish_intro circ payload length st).2
  else if decide (command = RELAY_COMMAND_ESTABLISH_RENDEZVOUS)
  then Some (rend_mid_establish_rendezvous circ payload length st).2
  else if decide (command = RELAY_COMMAND_INTRODUCE1)
  then Some (rend_mid_introduce circ payload length st).2
  else if decide (command = RELAY_COMMAND_INTRODUCE2)
  then Some (rend_service_introduce circ payload length st).2
  else if decide (command = RELAY_COMMAND_INTRODUCE_ACK)
  then Some (rend_client_introduction_acked circ payload length st).2
  else if decide (command = RELAY_COMMAND_RENDEZVOUS1)
  then Some (rend_mid_rendezvous circ payload length st).2
  else if decide (command = RELAY_COMMAND_RENDEZVOUS2)
  then Some (rend_client_receive_rendezvous circ payload length st).2
  else if decide (command = RELAY_COMMAND_INTRO_ESTABLISHED)
  then Some (rend_service_intro_established circ payload length st).2
  else if decide (command = RELAY_COMMAND_RENDEZVOUS_ESTABLISHED)
  then Some (rend_client_rendezvous_acked circ payload length st).2
  else None.

(** The nine command codes the dispatcher handles. *)
Definition rend_relay_commands `{RelayCommands} : list Z :=
  [RELAY_COMMAND_ESTABLISH_INTRO; RELAY_COMMAND_ESTABLISH_RENDEZVOUS;
   RELAY_COMMAND_INTRODUCE1; RELAY_COMMAND_INTRODUCE2;
   RELAY_COMMAND_INTRODUCE_ACK; RELAY_COMMAND_RENDEZVOUS1;
   RELAY_COMMAND_RENDEZVOUS2; RELAY_COMMAND_INTRO_ESTABLISHED;
   RELAY_COMMAND_RENDEZVOUS_ESTABLISHED].

(** * Properties *)

(** ** Bytes and fields *)

Lemma Z_of_byte_range b : 0 <= Z_of_byte b < 256.
Proof.
  unfold Z_of_byte. pose proof (Byte.to_N_bounded b). lia.
Qed.

Lemma Z_of_byte_of_Z z : Z_of_byte (byte_of_Z z) = z mod 256.
Proof.
  unfold Z_of_byte, byte_of_Z.
  pose proof (Z.mod_pos_bound z 256 ltac:(lia)) as Hz.
  destruct (Byte.of_N (Z.to_N (z mod 256))) as [b|] eqn:Hb.
  - apply Byte.to_of_N in Hb. rewrite Hb. lia.
  - apply Byte.of_N_None_iff in Hb. lia.
Qed.

Lemma ntohs_set_uint16 v cp :
  ntohs_get_uint16 (set_uint16_htons v ++ cp) = v mod 65536.
Proof.
  unfold set_uint16_htons, ntohs_get_uint16. cbn [app]. rewrite !Z_of_byte_of_Z.
  pose proof (Z.mod_pos_bound v 65536 ltac:(lia)).
  generalize dependent (v mod 65536); intros u Hu.
  rewrite (Z.mod_small (u / 256)) by (split; [apply Z.div_pos | apply Z.div_lt_upper_bound]; lia).
  pose proof (Z.div_mod u 256 ltac:(lia)). lia.
Qed.

Lemma ntohl_set_uint32 v cp :
  ntohl_get_uint32 (set_uint32_htonl v ++ cp) = v mod 4294967296.
Proof.
  unfold set_uint32_htonl, ntohl_get_uint32. cbn [app]. rewrite !Z_of_byte_of_Z.
  pose proof (Z.mod_pos_bound v 4294967296 ltac:(lia)).
  generalize dependent (v mod 4294967296); intros u Hu.
  rewrite (Z.mod_small (u / 16777216))
    by (split; [apply Z.div_pos | apply Z.div_lt_upper_bound]; lia).
  replace (u / 16777216) with (u / 256 / 256 / 256)
    by (rewrite !Z.div_div by lia; reflexivity).
  replace (u / 65536) with (u / 256 / 256)
    by (rewrite !Z.div_div by lia; reflexivity).
  pose proof (Z.div_mod u 256 ltac:(lia)).
  pose proof (Z.div_mod (u / 256) 256 ltac:(lia)).
  pose proof (Z.div_mod (u / 256 / 256) 256 ltac:(lia)).
  lia.
Qed.

Lemma ntohs_get_uint16_app cp junk :
  (2 <= length cp)%nat → ntohs_get_uint16 (cp ++ junk) = ntohs_get_uint16 cp.
Proof. destruct cp as [|? [|? ?]]; simpl; [lia..|done]. Qed.

Lemma ntohl_get_uint32_app cp junk :
  (4 <= length cp)%nat → ntohl_get_uint32 (cp ++ junk) = ntohl_get_uint32 cp.
Proof. destruct cp as [|? [|? [|? [|? ?]]]]; simpl; [lia..|done]. Qed.

Lemma ntohs_get_uint16_take cp m :
  (2 <= m)%nat → ntohs_get_uint16 (take m cp) = ntohs_get_uint16 cp.
Proof.
  destruct m as [|[|m]]; [lia..|]. by destruct cp as [|? [|? ?]].
Qed.

Lemma ntohl_get_uint32_take cp m :
  (4 <= m)%nat → ntohl_get_uint32 (take m cp) = ntohl_get_uint32 cp.
Proof.
  destruct m as [|[|[|[|m]]]]; [lia..|].
  by destruct cp as [|? [|? [|? [|? ?]]]].
Qed.

(** ** C strings *)

Lemma memchr_nul_lt cp eos : memchr_nul cp = Some eos → (eos < length cp)%nat.
Proof.
  revert eos. induction cp as [|b cp IH]; intros eos; simpl; [done|].
  case_decide; [intros [= <-]; lia|].
  destruct (memchr_nul cp) as [i|]; simpl; [|done].
  intros [= <-]. specialize (IH i eq_refl). lia.
Qed.

Lemma memchr_nul_app cp junk eos :
  memchr_nul cp = Some eos → memchr_nul (cp ++ junk) = Some eos.
Proof.
  revert eos. induction cp as [|b cp IH]; intros eos; simpl; [done|].
  case_decide; [done|].
  destruct (memchr_nul cp) as [i|]; simpl; [|done].
  intros [= <-]. by rewrite (IH i eq_refl).
Qed.

Lemma memchr_nul_take cp m eos :
  memchr_nul cp = Some eos →
  memchr_nul (take m cp) = if decide (eos < m)%nat then Some eos else None.
Proof.
  revert m eos. induction cp as [|b cp IH]; intros m eos; simpl; [done|].
  destruct m as [|m]; simpl.
  - done.
  - case_decide.
    + intros [= <-]. repeat case_decide; done || lia.
    + destruct (memchr_nul cp) as [i|] eqn:Hi; simpl; [|done].
      intros [= <-]. rewrite (IH m i eq_refl).
      repeat case_decide; simpl; done || lia.
Qed.

Lemma memchr_nul_nonul s : Forall (λ b, b ≠ x00) s → memchr_nul s = None.
Proof.
  induction 1 as [|b s Hb _ IH]; simpl; [done|].
  case_decide; [done|]. by rewrite IH.
Qed.

Lemma memchr_nul_terminated s cp :
  Forall (λ b, b ≠ x00) s → memchr_nul (s ++ x00 :: cp) = Some (length s).
Proof.
  induction 1 as [|b s Hb _ IH]; simpl; [done|].
  case_decide; [done|]. by rewrite IH.
Qed.

Lemma c_str_nonul s : Forall (λ b, b ≠ x00) s → c_str s = s.
Proof. intros Hs. unfold c_str. by rewrite memchr_nul_nonul. Qed.

Lemma c_str_terminated s cp :
  Forall (λ b, b ≠ x00) s → c_str (s ++ x00 :: cp) = s.
Proof.
  intros Hs. unfold c_str. rewrite memchr_nul_terminated by done.
  by rewrite take_app_length.
Qed.

Lemma c_str_app cp junk eos :
  memchr_nul cp = Some eos → c_str (cp ++ junk) = c_str cp.
Proof.
  intros Heos. unfold c_str. rewrite (memchr_nul_app _ _ _ Heos), Heos.
  apply take_app_le. apply memchr_nul_lt in Heos. lia.
Qed.

Lemma c_str_take cp m eos :
  memchr_nul cp = Some eos → (eos < m)%nat → c_str (take m cp) = c_str cp.
Proof.
  intros Heos Hm. unfold c_str. rewrite (memchr_nul_take _ m _ Heos), Heos.
  case_decide; [|lia]. rewrite take_take. f_equal. lia.
Qed.

(** ** The parser, step by step *)

Section CodecFacts.
Context `{Crypto}.

Lemma ntohs_get_uint16_nonneg cp : 0 <= ntohs_get_uint16 cp.
Proof.
  destruct cp as [|b0 [|b1 ?]]; simpl; try lia.
  pose proof (Z_of_byte_range b0). pose proof (Z_of_byte_range b1). lia.
Qed.

Lemma rend_parse_service_descriptor_steps str :
  rend_parse_service_descriptor str =
  match parse_header str with
  | None => ParseErr Truncated
  | Some (key, ts, n, cp) =>
      match parse_intro_points (Z.to_nat n) cp with
      | None => ParseErr Truncated
      | Some (ips, cp') => parse_tail str key ts n ips cp'
      end
  end.
Proof.
  unfold rend_parse_service_descriptor, parse_header, parse_tail.
  repeat (case_decide; [reflexivity|]).
  destruct (crypto_pk_asn1_decode _) as [key|]; [|reflexivity].
  repeat (case_decide; [reflexivity|]).
  destruct (parse_intro_points _ _) as [[ips cp']|]; reflexivity.
Qed.

(** The header occupies a prefix of the buffer. *)
Lemma parse_header_length str key ts n cp :
  parse_header str = Some (key, ts, n, cp) →
  (length cp <= length str)%nat ∧ cp = drop (length str - length cp) str.
Proof.
  unfold parse_header. intros Hh.
  repeat (case_decide; [done|]).
  destruct (crypto_pk_asn1_decode _) as [key'|]; [|done].
  repeat (case_decide; [done|]).
  injection Hh as <- <- <- <-.
  rewrite ?drop_drop, ?length_drop in *. split; [lia|].
  f_equal. pose proof (ntohs_get_uint16_nonneg str). lia.
Qed.

Lemma parse_header_app str junk key ts n cp :
  parse_header str = Some (key, ts, n, cp) →
  parse_header (str ++ junk) = Some (key, ts, n, cp ++ junk).
Proof.
  unfold parse_header. intros Hh.
  pose proof (ntohs_get_uint16_nonneg str) as Hnn.
  destruct (decide (Z.of_nat (length str) < 2)) as [|H2]; [done|].
  destruct (decide (Z.of_nat (length (drop 2 str)) < _)) as [|Ha]; [done|].
  destruct (crypto_pk_asn1_decode _) as [key'|] eqn:Hkey; [|done].
  destruct (decide (Z.of_nat (length (drop _ (drop 2 str))) < 4))
    as [|H4]; [done|].
  destruct (decide (Z.of_nat (length (drop 4 _)) < 2)) as [|H2']; [done|].
  injection Hh as <- <- <- <-.
  rewrite ?drop_drop, ?length_drop in *.
  rewrite (ntohs_get_uint16_app str) by lia.
  set (a := Z.to_nat (ntohs_get_uint16 str)) in *.
  rewrite ?drop_drop, ?length_drop, ?length_app.
  rewrite decide_False by lia. rewrite decide_False by lia.
  rewrite !(drop_app_le str) by lia.
  rewrite take_app_le by (rewrite length_drop; lia).
  rewrite Hkey.
  rewrite decide_False by lia. rewrite decide_False by lia.
  rewrite ntohl_get_uint32_app by (rewrite length_drop; lia).
  rewrite ntohs_get_uint16_app by (rewrite length_drop; lia).
  reflexivity.
Qed.

(** Cutting the buffer short: the header either no longer fits, or reads
    the same with less left after it. *)
Lemma parse_header_take str m key ts n cp :
  parse_header str = Some (key, ts, n, cp) →
  (m < length str)%nat →
  parse_header (take m str) = None
  ∨ ((length str - length cp <= m)%nat
     ∧ parse_header (take m str)
       = Some (key, ts, n, take (m - (length str - length cp)) cp)).
Proof.
  unfold parse_header. intros Hh Hm.
  pose proof (ntohs_get_uint16_nonneg str) as Hnn.
  destruct (decide (Z.of_nat (length str) < 2)) as [|H2]; [done|].
  destruct (decide (Z.of_nat (length (drop 2 str)) < _)) as [|Ha]; [done|].
  destruct (crypto_pk_asn1_decode _) as [key'|] eqn:Hkey; [|done].
  destruct (decide (Z.of_nat (length (drop _ (drop 2 str))) < 4))
    as [|H4]; [done|].
  destruct (decide (Z.of_nat (length (drop 4 _)) < 2)) as [|H2']; [done|].
  injection Hh as <- <- <- <-.
  rewrite ?drop_drop, ?length_drop in *.
  set (a := Z.to_nat (ntohs_get_uint16 str)) in *.
  destruct (decide (m < 2 + a + 4 + 2)%nat) as [Hcut|Hcut].
  - left.
    rewrite ?drop_drop, ?length_drop, ?length_take.
    case_decide; [done|].
    rewrite (ntohs_get_uint16_take str) by lia. fold a.
    case_decide; [done|].
    destruct (crypto_pk_asn1_decode (take _ (drop _ (take _ _)))); [|done].
    case_decide; [done|]. case_decide; [done|]. lia.
  - right. split; [lia|].
    rewrite ?drop_drop, ?length_drop, ?length_take.
    rewrite decide_False by lia.
    rewrite (ntohs_get_uint16_take str) by lia. fold a.
    rewrite decide_False by lia.
    rewrite <-!(Nat.add_assoc 2). rewrite !skipn_firstn_comm.
    rewrite take_take, Nat.min_l by lia. rewrite Hkey.
    rewrite decide_False by lia. rewrite decide_False by lia.
    rewrite ntohl_get_uint32_take by lia.
    rewrite ntohs_get_uint16_take by lia.
    do 3 f_equal; [lia|]. f_equal; lia.
Qed.

Lemma parse_intro_points_app n cp junk ips cp' :
  parse_intro_points n cp = Some (ips, cp') →
  parse_intro_points n (cp ++ junk) = Some (ips, cp' ++ junk).
Proof.
  revert cp ips. induction n as [|n IH]; intros cp ips; simpl.
  - by intros [= <- <-].
  - case_decide as Hlen; [done|].
    destruct (memchr_nul cp) as [eos|] eqn:Heos; [|done].
    destruct (parse_intro_points n (drop (S eos) cp))
      as [[ips0 cp0]|] eqn:Hrec; [|done].
    intros [= <- <-].
    pose proof (memchr_nul_lt _ _ Heos).
    rewrite length_app, decide_False by lia.
    rewrite (memchr_nul_app _ _ _ Heos), (c_str_app _ _ _ Heos).
    rewrite drop_app_le by lia. by rewrite (IH _ _ Hrec).
Qed.

(** Cutting the buffer short inside or after the intro points: the loop
    either runs out of bytes, or reads the same strings and leaves less. *)
Lemma parse_intro_points_take n cp j ips cp' :
  parse_intro_points n cp = Some (ips, cp') →
  (j < length cp)%nat →
  parse_intro_points n (take j cp) = None
  ∨ ∃ cp'', parse_intro_points n (take j cp) = Some (ips, cp'')
            ∧ (length cp'' < length cp')%nat.
Proof.
  revert cp j ips. induction n as [|n IH]; intros cp j ips; simpl.
  - intros [= <- <-] Hj. right. eexists; split; [done|].
    rewrite length_take. lia.
  - case_decide as Hlen; [done|].
    destruct (memchr_nul cp) as [eos|] eqn:Heos; [|done].
    destruct (parse_intro_points n (drop (S eos) cp))
      as [[ips0 cp0]|] eqn:Hrec; [|done].
    intros [= <- <-] Hj.
    pose proof (memchr_nul_lt _ _ Heos).
    case_decide; [by left|].
    rewrite (memchr_nul_take _ j _ Heos).
    case_decide as Hcut; [|by left].
    rewrite (c_str_take _ _ _ Heos Hcut), skipn_firstn_comm.
    destruct (IH _ (j - S eos)%nat _ Hrec) as [->|(cp''&->&?)];
      [rewrite length_drop; lia|by left|].
    right. by eexists.
Qed.

Lemma parse_intro_points_encode ips cp :
  Forall (Forall (λ b, b ≠ x00)) ips →
  (1 <= length cp)%nat →
  parse_intro_points (length ips) (encode_intro_points ips ++ cp)
  = Some (ips, cp).
Proof.
  intros Hips Hcp. induction Hips as [|s ips Hs _ IH]; [done|].
  unfold encode_intro_points in *. cbn [map concat length parse_intro_points].
  rewrite (c_str_nonul s) by done.
  rewrite <-!(assoc_L (++)). cbn [app].
  rewrite decide_False by (rewrite length_app; simpl; destruct ips; simpl;
    rewrite ?length_app; simpl; lia).
  rewrite memchr_nul_terminated, c_str_terminated by done.
  change (s ++ x00 :: ?l) with (s ++ [x00] ++ l).
  rewrite (assoc_L (++)), drop_app_length'
    by (rewrite length_app; simpl; lia).
  by rewrite IH.
Qed.

Lemma parse_header_encode asn1 key ts n body :
  Z.of_nat (length asn1) < 65536 →
  crypto_pk_asn1_decode asn1 = Some key →
  parse_header (set_uint16_htons (Z.of_nat (length asn1)) ++ asn1
                ++ set_uint32_htonl ts ++ set_uint16_htons n ++ body)
  = Some (key, ts mod 4294967296, n mod 65536, body).
Proof.
  intros Hlen Hkey. unfold parse_header.
  rewrite ntohs_set_uint16, Z.mod_small, Nat2Z.id by lia.
  change (drop 2 (set_uint16_htons ?v ++ ?l)) with l.
  rewrite take_app_length, drop_app_length, Hkey.
  rewrite ntohl_set_uint32.
  change (drop 4 (set_uint32_htonl ?v ++ ?l)) with l.
  rewrite ntohs_set_uint16.
  change (drop 2 (set_uint16_htons ?v ++ ?l)) with l.
  rewrite !length_app. cbn [length set_uint16_htons set_uint32_htonl].
  repeat (rewrite decide_False by lia). reflexivity.
Qed.

Lemma encode_len_out ips z :
  fold_left (λ acc ipoint, acc + (strlen ipoint + 1)) ips z
  = z + Z.of_nat (length (encode_intro_points ips)).
Proof.
  revert z. unfold encode_intro_points.
  induction ips as [|s ips IH]; intros z; simpl; [lia|].
  rewrite IH, !length_app. unfold strlen. simpl. lia.
Qed.

Lemma length_encode_payload d asn1 :
  Z.of_nat (length (encode_payload d asn1))
  = 2 + Z.of_nat (length asn1) + 4 + 2
    + Z.of_nat (length (encode_intro_points (visited_intro_points d))).
Proof. unfold encode_payload. rewrite !length_app. simpl. lia. Qed.

(** What [rend_encode_service_descriptor] returns once the crypto layer
    has encoded the key and signed the payload. *)
Lemma rend_encode_service_descriptor_ok d key asn1 sig :
  crypto_pk_asn1_encode (pk d) (crypto_pk_keysize (pk d) * 2) = Some asn1 →
  crypto_pk_private_sign_digest key (encode_payload d asn1) = Some sig →
  Z.of_nat (length sig) = crypto_pk_keysize (pk d) →
  rend_encode_service_descriptor d key
  = EncodeOk (encode_payload d asn1 ++ sig)
      (Z.of_nat (length (encode_payload d asn1 ++ sig))).
Proof.
  intros Hasn1 Hsig Hlen. unfold rend_encode_service_descriptor.
  rewrite Hasn1, Hsig, encode_len_out.
  pose proof (length_encode_payload d asn1).
  rewrite decide_True by lia. f_equal. rewrite length_app. lia.
Qed.

(** Parsing what the encoder wrote. *)
Lemma rend_parse_encode_payload d asn1 sig :
  descriptor_wf d →
  Z.of_nat (length asn1) < 65536 →
  crypto_pk_asn1_decode asn1 = Some (pk d) →
  0 < crypto_pk_keysize (pk d) →
  Z.of_nat (length sig) = crypto_pk_keysize (pk d) →
  crypto_pk_public_checksig_digest (pk d) (encode_payload d asn1) sig
  = true →
  rend_parse_service_descriptor (encode_payload d asn1 ++ sig)
  = ParseOk {| pk := pk d; timestamp := timestamp d mod 4294967296;
               n_intro_points := n_intro_points d;
               intro_points := intro_points d |}.
Proof.
  intros (Hn & Hn16 & Hnul) Hasn1 Hdec Hks Hsig Hchk.
  rewrite rend_parse_service_descriptor_steps.
  assert (visited_intro_points d = intro_points d) as Hvis.
  { unfold visited_intro_points. apply take_ge. lia. }
  unfold encode_payload at 1. rewrite Hvis, <-!(assoc_L (++)).
  rewrite (parse_header_encode _ _ _ _ _ Hasn1 Hdec).
  rewrite (Z.mod_small (n_intro_points d)) by lia.
  rewrite Hn at 1. rewrite Nat2Z.id.
  rewrite parse_intro_points_encode by (done || lia).
  unfold parse_tail.
  rewrite decide_False by lia. rewrite decide_False by lia.
  rewrite length_app, Nat.add_sub, take_app_length, Hchk.
  reflexivity.
Qed.
End CodecFacts.

(** ** The codec: round trip, truncation, trailing bytes *)

Section CodecTheorems.
Context `{Crypto}.

Lemma parse_tail_ok str key ts n ips cp d :
  parse_tail str key ts n ips cp = ParseOk d →
  Z.of_nat (length cp) = crypto_pk_keysize key.
Proof.
  unfold parse_tail. repeat (case_decide; [done|]). lia.
Qed.

(** C1 (as amended).  Round trip: for every descriptor [d] that satisfies
    the invariant of the data model (count equal to the number of intro
    points and below 65536, no NUL byte inside an intro point), whose
    timestamp fits the unsigned 32-bit field of the wire format, and every
    key [key] that is the private half of the public key of [d],
    [rend_encode_service_descriptor d key] succeeds and
    [rend_parse_service_descriptor] maps its output back to [d]: same key,
    same timestamp, same intro points in the same order. *)
Theorem rend_encode_parse_roundtrip d key :
  descriptor_wf d →
  0 <= timestamp d < 4294967296 →
  signing_key_of d key →
  ∃ str, rend_encode_service_descriptor d key
         = EncodeOk str (Z.of_nat (length str))
         ∧ rend_parse_service_descriptor str = ParseOk d.
Proof.
  intros Hwf Hts (asn1 & sig & Henc & Hlen & Hdec & Hks & Hsig & Hsl & Hchk).
  exists (encode_payload d asn1 ++ sig). split.
  - by apply rend_encode_service_descriptor_ok.
  - rewrite rend_parse_encode_payload by done.
    rewrite Z.mod_small by done. by destruct d.
Qed.

(** C6.  Truncation: if the bytes [str] are a valid encoding (they parse
    and verify as a descriptor), then every strict prefix of [str], of any
    length [m < length str], fails to parse, and fails with [Truncated]. *)
Theorem rend_parse_prefix_truncated str d m :
  rend_parse_service_descriptor str = ParseOk d →
  (m < length str)%nat →
  rend_parse_service_descriptor (take m str) = ParseErr Truncated.
Proof.
  rewrite !rend_parse_service_descriptor_steps. intros Hok Hm.
  destruct (parse_header str) as [[[[key ts] n] cp]|] eqn:Hhdr; [|done].
  destruct (parse_intro_points (Z.to_nat n) cp)
    as [[ips cp']|] eqn:Hloop; [|done].
  apply parse_tail_ok in Hok.
  destruct (parse_header_length _ _ _ _ _ Hhdr) as [Hle _].
  destruct (parse_header_take _ m _ _ _ _ Hhdr Hm) as [->|[Hcut ->]];
    [done|].
  destruct (parse_intro_points_take _ _
              (m - (length str - length cp))%nat _ _ Hloop)
    as [->|(cp''&->&Hshort)]; [lia|done|].
  unfold parse_tail. by rewrite decide_True by lia.
Qed.

(** C7.  Trailing bytes: if the bytes [str] are a valid encoding (they
    parse and verify as a descriptor), then [str] followed by one or more
    bytes fails to parse, and fails with [TrailingJunk]. *)
Theorem rend_parse_trailing_junk str d junk :
  rend_parse_service_descriptor str = ParseOk d →
  junk ≠ [] →
  rend_parse_service_descriptor (str ++ junk) = ParseErr TrailingJunk.
Proof.
  rewrite !rend_parse_service_descriptor_steps. intros Hok Hjunk.
  destruct (parse_header str) as [[[[key ts] n] cp]|] eqn:Hhdr; [|done].
  destruct (parse_intro_points (Z.to_nat n) cp)
    as [[ips cp']|] eqn:Hloop; [|done].
  apply parse_tail_ok in Hok.
  rewrite (parse_header_app _ junk _ _ _ _ Hhdr).
  rewrite (parse_intro_points_app _ _ junk _ _ Hloop).
  unfold parse_tail. rewrite length_app.
  destruct junk as [|b junk]; [done|]. simpl.
  rewrite decide_False by lia. by rewrite decide_True by lia.
Qed.
End CodecTheorems.

(** The three codec theorems on a descriptor of the small crypto layer: key
    [A], timestamp 1000000, intro points [alice] and [bob]. *)

Lemma toy_descriptor_wf ts :
  @descriptor_wf Toy.crypto (Toy.descriptor x41 ts [Toy.alice; Toy.bob]).
Proof.
  split; [by vm_compute|]. split; [by vm_compute|].
  repeat constructor; discriminate.
Defined.

Lemma toy_signing_key_of ts :
  @signing_key_of Toy.crypto (Toy.descriptor x41 ts [Toy.alice; Toy.bob]) x41.
Proof.
  exists [x30; x41].
  eexists. do 6 (split; [reflexivity|]).
  cbn [crypto_pk_public_checksig_digest Toy.crypto].
  unfold Toy.checksig. by rewrite bool_decide_eq_true.
Defined.

Lemma rend_encode_parse_roundtrip_witness :
  let d := Toy.descriptor x41 1000000 [Toy.alice; Toy.bob] in
  @descriptor_wf Toy.crypto d
  ∧ 0 <= timestamp d < 4294967296
  ∧ @signing_key_of Toy.crypto d x41
  ∧ ∃ str, rend_encode_service_descriptor d x41
           = EncodeOk str (Z.of_nat (length str))
           ∧ rend_parse_service_descriptor str = ParseOk d.
Proof.
  intros d.
  assert (0 <= timestamp d < 4294967296) as Hts by (by vm_compute).
  split; [apply toy_descriptor_wf|].
  split; [exact Hts|].
  split; [apply toy_signing_key_of|].
  apply (@rend_encode_parse_roundtrip Toy.crypto d x41).
  - apply toy_descriptor_wf.
  - exact Hts.
  - apply toy_signing_key_of.
Defined.

(** C1, counterexample.  The descriptor with timestamp [2^32] satisfies the
    data-model invariant, its intro points hold no NUL byte and the key
    matches; the encoder writes the timestamp into 32 bits and the parser
    reads back a descriptor with timestamp 0, which is not the one encoded. *)
Lemma rend_encode_parse_timestamp_wraps :
  let d := Toy.descriptor x41 4294967296 [Toy.alice; Toy.bob] in
  let d' := Toy.descriptor x41 0 [Toy.alice; Toy.bob] in
  @descriptor_wf Toy.crypto d
  ∧ @signing_key_of Toy.crypto d x41
  ∧ rend_encode_service_descriptor d x41
    = EncodeOk (Toy.encoded d) (Z.of_nat (length (Toy.encoded d)))
  ∧ rend_parse_service_descriptor (Toy.encoded d) = ParseOk d'
  ∧ d' ≠ d.
Proof.
  intros d d'. split; [apply toy_descriptor_wf|].
  split; [apply toy_signing_key_of|].
  split; [reflexivity|]. split; [reflexivity|].
  intros Heq. apply (f_equal timestamp) in Heq. discriminate Heq.
Qed.

Lemma rend_parse_prefix_truncated_witness :
  let d := Toy.descriptor x41 1000000 [Toy.alice; Toy.bob] in
  rend_parse_service_descriptor (Toy.encoded d) = ParseOk d
  ∧ (17 < length (Toy.encoded d))%nat
  ∧ @rend_parse_service_descriptor Toy.crypto (take 17 (Toy.encoded d))
    = ParseErr Truncated.
Proof.
  intros d.
  assert (@rend_parse_service_descriptor Toy.crypto (Toy.encoded d)
          = ParseOk d) as Hok
    by reflexivity.
  assert (17 < length (Toy.encoded d))%nat as Hm by (vm_compute; lia).
  exact (conj Hok (conj Hm
    (@rend_parse_prefix_truncated Toy.crypto _ _ _ Hok Hm))).
Defined.

Lemma rend_parse_trailing_junk_witness :
  let d := Toy.descriptor x41 1000000 [Toy.alice; Toy.bob] in
  rend_parse_service_descriptor (Toy.encoded d) = ParseOk d
  ∧ [x00] ≠ []
  ∧ @rend_parse_service_descriptor Toy.crypto (Toy.encoded d ++ [x00])
    = ParseErr TrailingJunk.
Proof.
  intros d.
  assert (@rend_parse_service_descriptor Toy.crypto (Toy.encoded d)
          = ParseOk d) as Hok
    by reflexivity.
  assert ([x00] ≠ @nil byte) as Hj by discriminate.
  exact (conj Hok (conj Hj
    (@rend_parse_trailing_junk Toy.crypto _ _ _ Hok Hj))).
Defined.

(** ** The cache *)

Section CacheFacts.
Context `{Crypto}.
Implicit Types (c : gmap string rend_cache_entry_t) (e : rend_cache_entry_t).

Lemma same_bytes_iff e d :
  len e = Z.of_nat (length (desc e)) → same_bytes e d ↔ desc e = d.
Proof.
  intros Hlen. unfold same_bytes. split.
  - intros [Hl Ht]. rewrite take_ge in Ht by lia.
    rewrite take_ge in Ht by lia. done.
  - intros <-. split; [done|]. by rewrite take_ge by lia.
Qed.

(** The body of [rend_cache_store] after a successful parse and a
    successful service-ID computation. *)
Lemma rend_cache_store_parsed now d c p query :
  rend_parse_service_descriptor d = ParseOk p →
  rend_get_service_id (pk p) = Some query →
  rend_cache_store now d c =
  if decide (timestamp p < now - REND_CACHE_MAX_AGE) then (-1, c)
  else if decide (timestamp p > now + REND_CACHE_MAX_SKEW) then (-1, c)
  else
    let fresh := {| len := Z.of_nat (length d); desc := d;
                    received := now; parsed := p |} in
    match strmap_get_lc c query with
    | Some e =>
        if decide (timestamp (parsed e) > timestamp p) then (0, c)
        else if decide (same_bytes e d)
        then (0, strmap_set_lc c query
                   {| len := len e; desc := desc e;
                      received := now; parsed := parsed e |})
        else (0, strmap_set_lc c query fresh)
    | None => (0, strmap_set_lc c query fresh)
    end.
Proof. intros Hp Hq. unfold rend_cache_store. by rewrite Hp, Hq. Qed.

(** A store never lowers the timestamp of an entry. *)
Lemma rend_cache_store_timestamp_mono now d c key e :
  c !! key = Some e →
  ∃ e', (rend_cache_store now d c).2 !! key = Some e'
        ∧ timestamp (parsed e) <= timestamp (parsed e').
Proof.
  intros He. unfold rend_cache_store.
  destruct (rend_parse_service_descriptor d) as [p|]; [|by exists e].
  destruct (rend_get_service_id (pk p)) as [query|]; [|by exists e].
  repeat (case_decide; [by exists e|]).
  unfold strmap_get_lc, strmap_set_lc.
  destruct (decide (tor_strlower query = key)) as [->|Hne].
  - rewrite He. case_decide; [by exists e|].
    case_decide; simpl; rewrite lookup_insert_eq; eexists; split;
      try done; simpl; lia.
  - destruct (c !! tor_strlower query) as [e0|];
      repeat case_decide; simpl; rewrite ?lookup_insert_ne by done;
      by exists e.
Qed.

(** Entries made by [rend_cache_store] are well formed, and it keeps the
    others. *)
Lemma rend_cache_store_wf now d c :
  cache_wf c → cache_wf (rend_cache_store now d c).2.
Proof.
  intros Hwf. unfold rend_cache_store.
  destruct (rend_parse_service_descriptor d) as [p|] eqn:Hp; [|done].
  destruct (rend_get_service_id (pk p)) as [query|] eqn:Hq; [|done].
  repeat (case_decide; [done|]).
  assert (∀ e, entry_wf (tor_strlower query) e →
            cache_wf (strmap_set_lc c query e)) as Hset.
  { intros e He key e'. unfold strmap_set_lc.
    destruct (decide (tor_strlower query = key)) as [<-|Hne].
    - rewrite lookup_insert_eq. by intros [= <-].
    - rewrite lookup_insert_ne by done. apply Hwf. }
  assert (entry_wf (tor_strlower query)
            {| len := Z.of_nat (length d); desc := d;
               received := now; parsed := p |}) as Hfresh.
  { split; [done|]. split; [done|]. by exists query. }
  destruct (strmap_get_lc c query) as [e|] eqn:He; simpl; [|by apply Hset].
  case_decide; [done|].
  case_decide; simpl; apply Hset; [|done].
  apply Hwf in He. destruct He as (?&?&?). by repeat split.
Qed.

Lemma rend_cache_init_wf : cache_wf rend_cache_init.
Proof. intros key e. unfold rend_cache_init. by rewrite lookup_empty. Qed.

(** The cache after [rend_cache_clean]: the entries older than the cutoff
    are gone, the others are as they were. *)
Lemma rend_cache_clean_lookup now c key :
  rend_cache_clean now c !! key =
  match c !! key with
  | Some e =>
      if decide (timestamp (parsed e) < now - REND_CACHE_MAX_AGE)
      then None else Some e
  | None => None
  end.
Proof.
  unfold rend_cache_clean.
  set (cutoff := now - REND_CACHE_MAX_AGE).
  assert (∀ c0 k,
    map_fold (rend_cache_clean_step cutoff) c0 c !! k =
    match c !! k with
    | Some e => if decide (timestamp (parsed e) < cutoff) then None
                else c0 !! k
    | None => c0 !! k
    end) as Hgen.
  { intros c0.
    apply (map_fold_weak_ind (λ r m, ∀ k, r !! k =
      match m !! k with
      | Some e => if decide (timestamp (parsed e) < cutoff) then None
                  else c0 !! k
      | None => c0 !! k
      end)).
    - intros k. by rewrite lookup_empty.
    - intros i x m r Hi IH k. unfold rend_cache_clean_step.
      destruct (decide (i = k)) as [->|Hne].
      + rewrite lookup_insert_eq. specialize (IH k). rewrite Hi in IH.
        case_decide; [by rewrite lookup_delete_eq|done].
      + rewrite lookup_insert_ne by done. rewrite <-IH.
        case_decide; [by rewrite lookup_delete_ne|done]. }
  rewrite Hgen. destruct (c !! key); [|done]. by case_decide.
Qed.

Lemma rend_cache_clean_wf now c : cache_wf c → cache_wf (rend_cache_clean now c).
Proof.
  intros Hwf key e. rewrite rend_cache_clean_lookup.
  destruct (c !! key) as [e0|] eqn:He0; [|done].
  case_decide; [done|]. intros [= <-]. by apply Hwf.
Qed.

(** Every cache the program can reach, by stores and cleanings from the
    initial one, is well formed. *)
Lemma rend_cache_run_wf calls :
  cache_wf (rend_cache_run calls rend_cache_init).
Proof.
  unfold rend_cache_run.
  generalize rend_cache_init_wf. generalize rend_cache_init.
  induction calls as [|call calls IH]; intros c Hwf; [done|].
  apply IH. destruct call; simpl.
  - by apply rend_cache_store_wf.
  - by apply rend_cache_clean_wf.
Qed.
End CacheFacts.

(** ** Service IDs and letter case *)

Lemma strchr_base32_tolower ch :
  strchr BASE32_CHARS ch = true → tolower ch = ch.
Proof.
  destruct ch as [[] [] [] [] [] [] [] []]; vm_compute; intros Hin;
    (reflexivity || discriminate Hin).
Qed.

Lemma strspn_base32_strlower s :
  strspn s BASE32_CHARS = Z.of_nat (String.length s) → tor_strlower s = s.
Proof.
  induction s as [|ch s IH]; [done|].
  cbn [strspn String.length tor_strlower].
  destruct (strchr BASE32_CHARS ch) eqn:Hch; [|lia].
  intros Hlen. rewrite (strchr_base32_tolower _ Hch), IH; [done|lia].
Qed.

Lemma rend_valid_service_id_strlower query :
  rend_valid_service_id query = true → tor_strlower query = query.
Proof.
  unfold rend_valid_service_id. repeat (case_decide; [done|]). intros _.
  apply strspn_base32_strlower. lia.
Qed.

(** ** The cache: lookups, stores, cleaning *)

Section CacheTheorems.
Context `{Crypto}.
Implicit Types (c : gmap string rend_cache_entry_t) (e : rend_cache_entry_t).

(** C5 (as amended).  Lookup and letter case: for a service ID [id] stored
    in its lowercase canonical form (16 characters of the base32
    alphabet), a query that is [id] up to letter case is a hit
    ([1], with the stored entry) exactly when it is [id] itself; with any
    letter in upper case [rend_cache_lookup_entry] answers [-1], the
    malformed-query result, and does not consult the cache. *)
Theorem rend_cache_lookup_entry_letter_case c id query e :
  c !! id = Some e →
  rend_valid_service_id id = true →
  tor_strlower query = id →
  (query = id → rend_cache_lookup_entry query c = (1, Some e))
  ∧ (query ≠ id → rend_cache_lookup_entry query c = (-1, None)).
Proof.
  intros He Hid Hlc. unfold rend_cache_lookup_entry. split.
  - intros ->. rewrite Hid. simpl. unfold strmap_get_lc.
    by rewrite (rend_valid_service_id_strlower _ Hid), He.
  - intros Hne. destruct (rend_valid_service_id query) eqn:Hq; [|done].
    apply rend_valid_service_id_strlower in Hq. congruence.
Qed.

(** C8.  Cleaning: after [rend_cache_clean] at time [now], no entry left in
    the cache has a timestamp below [now - 86400], and every entry that was
    in the cache with a timestamp of at least [now - 86400] is still
    there, unchanged, under the same service ID. *)
Theorem rend_cache_clean_invariant now c :
  (∀ key e, rend_cache_clean now c !! key = Some e →
            ¬ timestamp (parsed e) < now - 86400)
  ∧ (∀ key e, c !! key = Some e →
              now - 86400 <= timestamp (parsed e) →
              rend_cache_clean now c !! key = Some e).
Proof.
  change 86400 with REND_CACHE_MAX_AGE. split; intros key e.
  - rewrite rend_cache_clean_lookup.
    destruct (c !! key) as [e0|]; [|done].
    case_decide; [done|]. by intros [= <-].
  - intros He Hts. rewrite rend_cache_clean_lookup, He.
    by rewrite decide_False by lia.
Qed.

(** C10.  Rejection leaves the cache alone: whenever [rend_cache_store]
    returns [-1], for whichever reason (parse failure, no service ID,
    too old, too far in the future), the cache after the call is the cache
    before the call. *)
Theorem rend_cache_store_rejected_unchanged now d c :
  (rend_cache_store now d c).1 = -1 →
  (rend_cache_store now d c).2 = c.
Proof.
  unfold rend_cache_store.
  destruct (rend_parse_service_descriptor d) as [p|]; [|done].
  destruct (rend_get_service_id (pk p)) as [query|]; [|done].
  repeat (case_decide; [done|]).
  destruct (strmap_get_lc c query) as [e|]; [|done].
  repeat case_decide; done.
Qed.

(** C3 (as amended).  Freshness window: for bytes that parse and verify as
    a descriptor [p] and whose service ID can be computed,
    [rend_cache_store] at time [now] returns [0] if and only if
    [now - 86400 <= timestamp p <= now + 5400]; outside that window it
    returns [-1] and leaves the cache as it was; inside it the descriptor is
    ignored (the cache is as it was), or refreshes the entry of its service
    ID (only [received] changes), or is filed under its service ID. *)
Theorem rend_cache_store_freshness now d c p query :
  rend_parse_service_descriptor d = ParseOk p →
  rend_get_service_id (pk p) = Some query →
  ((rend_cache_store now d c).1 = 0
   ↔ now - 86400 <= timestamp p <= now + 5400)
  ∧ (¬ (now - 86400 <= timestamp p <= now + 5400) →
     rend_cache_store now d c = (-1, c))
  ∧ (now - 86400 <= timestamp p <= now + 5400 →
     rend_cache_store now d c = (0, c)
     ∨ (∃ e, strmap_get_lc c query = Some e
             ∧ rend_cache_store now d c
               = (0, strmap_set_lc c query
                       {| len := len e; desc := desc e;
                          received := now; parsed := parsed e |}))
     ∨ rend_cache_store now d c
       = (0, strmap_set_lc c query
               {| len := Z.of_nat (length d); desc := d;
                  received := now; parsed := p |})).
Proof.
  intros Hp Hq. rewrite (rend_cache_store_parsed _ _ _ _ _ Hp Hq).
  change REND_CACHE_MAX_AGE with 86400.
  change REND_CACHE_MAX_SKEW with 5400.
  case_decide; [split; [split; simpl; [done|lia]|split; [done|lia]]|].
  case_decide; [split; [split; simpl; [done|lia]|split; [done|lia]]|].
  cbv zeta. destruct (strmap_get_lc c query) as [e|].
  - case_decide; [|case_decide].
    + split; [split; [lia|done]|]. split; [lia|]. by left.
    + split; [split; [lia|done]|]. split; [lia|]. right; left. by exists e.
    + split; [split; [lia|done]|]. split; [lia|]. by right; right.
  - split; [split; [lia|done]|]. split; [lia|]. by right; right.
Qed.

(** C2 (as amended).  Equal timestamps: when the cache holds an entry for
    the service ID of a parseable, fresh descriptor, with the same
    timestamp but other bytes, [rend_cache_store] returns [0] and replaces
    the entry: the later descriptor wins, its bytes, length and parsed form
    are what the cache holds afterwards. *)
Theorem rend_cache_store_equal_timestamp now d c p query e :
  rend_parse_service_descriptor d = ParseOk p →
  rend_get_service_id (pk p) = Some query →
  now - 86400 <= timestamp p <= now + 5400 →
  strmap_get_lc c query = Some e →
  len e = Z.of_nat (length (desc e)) →
  timestamp (parsed e) = timestamp p →
  desc e ≠ d →
  rend_cache_store now d c
  = (0, <[tor_strlower query :=
            {| len := Z.of_nat (length d); desc := d;
               received := now; parsed := p |}]> c).
Proof.
  intros Hp Hq Hfresh He Hlen Hts Hne.
  rewrite (rend_cache_store_parsed _ _ _ _ _ Hp Hq), He.
  unfold REND_CACHE_MAX_AGE, REND_CACHE_MAX_SKEW.
  rewrite decide_False by lia. rewrite decide_False by lia. cbv zeta.
  rewrite decide_False by lia.
  rewrite decide_False by (by rewrite same_bytes_iff).
  reflexivity.
Qed.

(** C9 (as amended).  Duplicates: when [rend_cache_store] is called with the
    very bytes of an entry of a well-formed cache (every cache reached from
    [rend_cache_init] is one, [rend_cache_run_wf]), and the timestamp of the
    descriptor is within the freshness window at [now], it returns [0] and
    the cache afterwards differs only in that entry's [received], now
    [now]: its parsed descriptor, bytes and length are as before. *)
Theorem rend_cache_store_duplicate now c key e :
  cache_wf c →
  c !! key = Some e →
  now - 86400 <= timestamp (parsed e) <= now + 5400 →
  rend_cache_store now (desc e) c
  = (0, <[key := {| len := len e; desc := desc e;
                    received := now; parsed := parsed e |}]> c).
Proof.
  intros Hwf He Hfresh.
  destruct (Hwf _ _ He) as (Hlen & Hp & query & Hq & <-).
  rewrite (rend_cache_store_parsed _ _ _ _ _ Hp Hq).
  unfold REND_CACHE_MAX_AGE, REND_CACHE_MAX_SKEW, strmap_get_lc.
  rewrite decide_False by lia. rewrite decide_False by lia. rewrite He.
  rewrite decide_False by lia.
  by rewrite decide_True by (by rewrite same_bytes_iff).
Qed.
End CacheTheorems.

(** ** Sequences of stores for one service *)

Section CacheMonotone.
Context `{Crypto}.
Implicit Types (c : gmap string rend_cache_entry_t) (e : rend_cache_entry_t).

Lemma descriptor_timestamp_parsed d p :
  rend_parse_service_descriptor d = ParseOk p →
  descriptor_timestamp d = timestamp p.
Proof. intros Hp. unfold descriptor_timestamp. by rewrite Hp. Qed.

(** One store keeps the entry of [query] at the maximum of the accepted
    timestamps. *)
Lemma rend_cache_store_tracks now d c query acc :
  presents query d →
  tracks_maximum c query acc →
  tracks_maximum (rend_cache_store now d c).2 query
    (if decide ((rend_cache_store now d c).1 = 0)
     then acc ++ [descriptor_timestamp d] else acc).
Proof.
  intros (p & Hp & Hq) Hacc.
  rewrite (descriptor_timestamp_parsed _ _ Hp).
  rewrite (rend_cache_store_parsed _ _ _ _ _ Hp Hq).
  case_decide; [done|]. case_decide; [done|]. cbv zeta.
  unfold tracks_maximum in *.
  destruct (strmap_get_lc c query) as [e|] eqn:He.
  - destruct Hacc as (Hlen & Hpe & Hin & Hmax).
    case_decide as Hnewer.
    + simpl. rewrite He. repeat split; try done.
      * set_solver.
      * intros t [Ht|Ht]%elem_of_app; [by apply Hmax|].
        apply list_elem_of_singleton in Ht. lia.
    + assert (∀ t, t ∈ acc ++ [timestamp p] → t <= timestamp p) as Hall.
      { intros t [Ht|Ht]%elem_of_app; [apply Hmax in Ht; lia|].
        apply list_elem_of_singleton in Ht. lia. }
      case_decide as Hsame; simpl; unfold strmap_get_lc, strmap_set_lc;
        rewrite lookup_insert_eq; simpl.
      * apply same_bytes_iff in Hsame; [|done]. subst d.
        assert (parsed e = p) as -> by congruence.
        repeat split; try done. set_solver.
      * repeat split; try done. set_solver.
  - subst acc. simpl. unfold strmap_get_lc, strmap_set_lc.
    rewrite lookup_insert_eq. simpl. repeat split; try done.
    + set_solver.
    + intros t Ht. apply list_elem_of_singleton in Ht. lia.
Qed.

Lemma rend_cache_store_seq_tracks calls c query acc :
  Forall (λ call, presents query call.2) calls →
  tracks_maximum c query acc →
  tracks_maximum (rend_cache_store_seq calls c).2 query
    (acc ++ accepted_timestamps calls (rend_cache_store_seq calls c).1).
Proof.
  intros Hcalls. revert c acc.
  induction Hcalls as [|[now d] calls Hd _ IH]; intros c acc Hacc.
  - simpl. by rewrite (right_id_L [] (++)).
  - pose proof (rend_cache_store_tracks now d c query acc Hd Hacc) as Hstep.
    cbn [rend_cache_store_seq].
    destruct (rend_cache_store now d c) as [r c1].
    specialize (IH c1 _ Hstep).
    destruct (rend_cache_store_seq calls c1) as [rs c2].
    cbn [fst snd accepted_timestamps] in *.
    case_decide; [|done]. by rewrite <-(assoc_L (++)) in IH.
Qed.

(** The return value of a store of bytes that present a descriptor: 0 inside
    the freshness window, -1 outside it, whatever the cache holds. *)
Lemma rend_cache_store_return_presented now d c query :
  presents query d →
  (rend_cache_store now d c).1
  = if decide (now - 86400 <= descriptor_timestamp d <= now + 5400)
    then 0 else -1.
Proof.
  intros (p & Hp & Hq).
  rewrite (descriptor_timestamp_parsed _ _ Hp).
  rewrite (rend_cache_store_parsed _ _ _ _ _ Hp Hq).
  unfold REND_CACHE_MAX_AGE, REND_CACHE_MAX_SKEW.
  case_decide; [by rewrite decide_False by lia|].
  case_decide; [by rewrite decide_False by lia|].
  rewrite decide_True by lia. cbv zeta.
  destruct (strmap_get_lc c query); [|done]. by repeat case_decide.
Qed.

(** The calls of a sequence that return 0 are its fresh calls. *)
Lemma rend_cache_store_seq_fresh calls c query :
  Forall (λ call, presents query call.2) calls →
  (rend_cache_store_seq calls c).1 = fresh_returns calls
  ∧ accepted_timestamps calls (rend_cache_store_seq calls c).1
    = fresh_timestamps calls.
Proof.
  intros Hcalls. revert c.
  induction Hcalls as [|[now d] calls Hd _ IH]; intros c; [done|].
  pose proof (rend_cache_store_return_presented now d c query Hd) as Hr.
  cbn [rend_cache_store_seq].
  destruct (rend_cache_store now d c) as [r c1]. cbn [fst] in Hr.
  destruct (IH c1) as [IH1 IH2].
  destruct (rend_cache_store_seq calls c1) as [rs c2].
  cbn [fst snd accepted_timestamps fresh_returns fresh_timestamps] in *.
  subst r rs. split; [done|]. rewrite IH2.
  by repeat case_decide.
Qed.

(** C4.  Monotone cache: take any sequence of [rend_cache_store] calls that
    all present descriptors of one service ID [query], from any cache whose
    entry for [query], if it has one, is well formed.  The accepted calls,
    those that return 0, are exactly the calls whose descriptor is inside
    the freshness window at the time of the call; every other call returns
    -1.  Afterwards the timestamp of the entry for [query] is the maximum
    of the timestamps of the accepted descriptors and of the entry the
    cache held for [query] before the first call, if any: it is one of them
    and none of them is greater; there is no entry when there was none and
    no call was accepted.  From a cache without an entry for [query], such
    as [rend_cache_init], this is the maximum of the accepted timestamps.
    And at no call of the sequence does an entry that was in the cache come
    out with a smaller timestamp. *)
Theorem rend_cache_store_seq_monotone calls c0 query :
  Forall (λ call, presents query call.2) calls →
  (∀ e0, strmap_get_lc c0 query = Some e0 →
         entry_wf (tor_strlower query) e0) →
  let accepted := fresh_timestamps calls in
  let held := match strmap_get_lc c0 query with
              | Some e0 => [timestamp (parsed e0)]
              | None => []
              end in
  (rend_cache_store_seq calls c0).1 = fresh_returns calls
  ∧ accepted_timestamps calls (rend_cache_store_seq calls c0).1 = accepted
  ∧ (held ++ accepted = [] →
     strmap_get_lc (rend_cache_store_seq calls c0).2 query = None)
  ∧ (held ++ accepted ≠ [] →
     ∃ e, strmap_get_lc (rend_cache_store_seq calls c0).2 query = Some e
          ∧ timestamp (parsed e) ∈ held ++ accepted
          ∧ ∀ t, t ∈ held ++ accepted → t <= timestamp (parsed e))
  ∧ (∀ pre now d post key e,
       calls = pre ++ (now, d) :: post →
       (rend_cache_store_seq pre c0).2 !! key = Some e →
       ∃ e', (rend_cache_store now d (rend_cache_store_seq pre c0).2).2
               !! key = Some e'
             ∧ timestamp (parsed e) <= timestamp (parsed e')).
Proof.
  intros Hcalls Hslot accepted held.
  destruct (rend_cache_store_seq_fresh calls c0 query Hcalls) as [Hret Hacc].
  assert (tracks_maximum c0 query held) as H0.
  { unfold tracks_maximum, held.
    destruct (strmap_get_lc c0 query) as [e0|]; [|done].
    destruct (Hslot e0 eq_refl) as (Hlen & Hpe & _).
    split; [done|]. split; [done|]. split; [apply list_elem_of_here|].
    intros t Ht. apply list_elem_of_singleton in Ht. lia. }
  pose proof (rend_cache_store_seq_tracks calls c0 query held Hcalls H0)
    as Hend.
  rewrite Hacc in Hend. fold accepted in Hend.
  unfold tracks_maximum in Hend.
  split; [exact Hret|]. split; [exact Hacc|]. split; [|split].
  - intros Hnil.
    destruct (strmap_get_lc (rend_cache_store_seq calls c0).2 query)
      as [e|]; [|done].
    destruct Hend as (_ & _ & Hin & _). rewrite Hnil in Hin.
    by apply elem_of_nil in Hin.
  - intros Hne.
    destruct (strmap_get_lc (rend_cache_store_seq calls c0).2 query)
      as [e|]; [|done].
    destruct Hend as (_ & _ & Hin & Hmax). by exists e.
  - intros pre now d post key e _ He.
    by apply rend_cache_store_timestamp_mono.
Qed.
End CacheMonotone.

(** ** The cache on concrete descriptors

    The cache theorems, and the behaviour the amended ones replace, on the
    descriptors of the small crypto layer. *)

Lemma toy_presents_ab : @presents Toy.crypto Toy.service_id Toy.desc_ab.
Proof. exists Toy.parsed_ab. split; reflexivity. Defined.

Lemma toy_presents_c : @presents Toy.crypto Toy.service_id Toy.desc_c.
Proof. exists Toy.parsed_c. split; reflexivity. Defined.

Lemma toy_presents_newer : @presents Toy.crypto Toy.service_id Toy.desc_newer.
Proof. exists Toy.parsed_newer. split; reflexivity. Defined.

(** C2, counterexample.  Two parseable, fresh descriptors of one service with
    the same timestamp and different bytes, stored one after the other: the
    second call returns 0 and the cache then holds the bytes of the second,
    not of the first. *)
Lemma rend_cache_store_equal_timestamp_last_wins :
  let c1 := (@rend_cache_store Toy.crypto 1000500 Toy.desc_ab ∅).2 in
  let r2 := @rend_cache_store Toy.crypto 1000600 Toy.desc_c c1 in
  @presents Toy.crypto Toy.service_id Toy.desc_ab
  ∧ @presents Toy.crypto Toy.service_id Toy.desc_c
  ∧ @descriptor_timestamp Toy.crypto Toy.desc_ab
    = @descriptor_timestamp Toy.crypto Toy.desc_c
  ∧ Toy.desc_ab ≠ Toy.desc_c
  ∧ (desc <$> c1 !! Toy.service_id) = Some Toy.desc_ab
  ∧ r2.1 = 0
  ∧ (desc <$> r2.2 !! Toy.service_id) = Some Toy.desc_c
  ∧ (parsed <$> r2.2 !! Toy.service_id) = Some Toy.parsed_c.
Proof.
  intros c1 r2.
  split; [apply toy_presents_ab|]. split; [apply toy_presents_c|].
  split; [reflexivity|]. split; [by vm_compute|].
  repeat split; reflexivity.
Qed.

Lemma rend_cache_store_equal_timestamp_witness :
  let c1 := (@rend_cache_store Toy.crypto 1000500 Toy.desc_ab ∅).2 in
  @rend_parse_service_descriptor Toy.crypto Toy.desc_c = ParseOk Toy.parsed_c
  ∧ @rend_get_service_id Toy.crypto (pk Toy.parsed_c) = Some Toy.service_id
  ∧ 1000600 - 86400 <= timestamp Toy.parsed_c <= 1000600 + 5400
  ∧ strmap_get_lc c1 Toy.service_id = Some (Toy.entry_ab 1000500)
  ∧ len (Toy.entry_ab 1000500)
    = Z.of_nat (length (desc (Toy.entry_ab 1000500)))
  ∧ timestamp (parsed (Toy.entry_ab 1000500)) = timestamp Toy.parsed_c
  ∧ desc (Toy.entry_ab 1000500) ≠ Toy.desc_c
  ∧ @rend_cache_store Toy.crypto 1000600 Toy.desc_c c1
    = (0, <[tor_strlower Toy.service_id :=
              {| len := Z.of_nat (length Toy.desc_c); desc := Toy.desc_c;
                 received := 1000600; parsed := Toy.parsed_c |}]> c1).
Proof.
  intros c1.
  assert (@rend_parse_service_descriptor Toy.crypto Toy.desc_c
          = ParseOk Toy.parsed_c) as Hp by reflexivity.
  assert (@rend_get_service_id Toy.crypto (pk Toy.parsed_c)
          = Some Toy.service_id) as Hq by reflexivity.
  assert (1000600 - 86400 <= timestamp Toy.parsed_c <= 1000600 + 5400)
    as Hfresh by (cbn; lia).
  assert (strmap_get_lc c1 Toy.service_id = Some (Toy.entry_ab 1000500))
    as He by reflexivity.
  assert (len (Toy.entry_ab 1000500)
          = Z.of_nat (length (desc (Toy.entry_ab 1000500)))) as Hlen
    by reflexivity.
  assert (timestamp (parsed (Toy.entry_ab 1000500))
          = timestamp Toy.parsed_c) as Hts by reflexivity.
  assert (desc (Toy.entry_ab 1000500) ≠ Toy.desc_c) as Hne by (by vm_compute).
  repeat (split; [assumption|]).
  exact (@rend_cache_store_equal_timestamp Toy.crypto _ _ _ _ _ _
           Hp Hq Hfresh He Hlen Hts Hne).
Defined.

(** C3, counterexample.  With a crypto layer whose digest function reports
    failure, bytes that parse and verify and whose timestamp is inside the
    window are not accepted: [rend_get_service_id] fails and
    [rend_cache_store] returns -1. *)
Lemma rend_cache_store_no_service_id :
  let p := @Build_rend_service_descriptor_t Toy.crypto_no_digest
             x41 1000000 2 [Toy.alice; Toy.bob] in
  @rend_parse_service_descriptor Toy.crypto_no_digest Toy.desc_ab = ParseOk p
  ∧ 1000500 - 86400 <= timestamp p <= 1000500 + 5400
  ∧ (@rend_cache_store Toy.crypto_no_digest 1000500 Toy.desc_ab ∅).1 = -1
  ∧ ¬ ((@rend_cache_store Toy.crypto_no_digest 1000500 Toy.desc_ab ∅).1 = 0
       ↔ 1000500 - 86400 <= timestamp p <= 1000500 + 5400).
Proof.
  intros p. split; [reflexivity|]. split; [cbn; lia|].
  split; [reflexivity|].
  intros [_ Hacc]. assert (-1 = 0) as Habs; [|discriminate Habs].
  apply Hacc. cbn; lia.
Qed.

Lemma rend_cache_store_freshness_witness :
  @rend_parse_service_descriptor Toy.crypto Toy.desc_ab = ParseOk Toy.parsed_ab
  ∧ @rend_get_service_id Toy.crypto (pk Toy.parsed_ab) = Some Toy.service_id
  ∧ ((@rend_cache_store Toy.crypto 1000500 Toy.desc_ab ∅).1 = 0
     ↔ 1000500 - 86400 <= timestamp Toy.parsed_ab <= 1000500 + 5400)
  ∧ (¬ (1000500 - 86400 <= timestamp Toy.parsed_ab <= 1000500 + 5400) →
     @rend_cache_store Toy.crypto 1000500 Toy.desc_ab ∅ = (-1, ∅)).
Proof.
  assert (@rend_parse_service_descriptor Toy.crypto Toy.desc_ab
          = ParseOk Toy.parsed_ab) as Hp by reflexivity.
  assert (@rend_get_service_id Toy.crypto (pk Toy.parsed_ab)
          = Some Toy.service_id) as Hq by reflexivity.
  split; [exact Hp|]. split; [exact Hq|].
  destruct (@rend_cache_store_freshness Toy.crypto 1000500 _ ∅ _ _ Hp Hq)
    as (Hiff & Hout & _).
  exact (conj Hiff Hout).
Defined.

(** C9, counterexample.  The bytes of a cached entry stored again, a day and
    a second after the timestamp of the descriptor: the call returns -1 and
    the entry keeps its old [received]. *)
Lemma rend_cache_store_stale_duplicate :
  let c1 := (@rend_cache_store Toy.crypto 1000500 Toy.desc_ab ∅).2 in
  let r2 := @rend_cache_store Toy.crypto 1086401 Toy.desc_ab c1 in
  c1 !! Toy.service_id = Some (Toy.entry_ab 1000500)
  ∧ desc (Toy.entry_ab 1000500) = Toy.desc_ab
  ∧ r2.1 = -1
  ∧ r2.2 !! Toy.service_id = Some (Toy.entry_ab 1000500)
  ∧ received (Toy.entry_ab 1000500) ≠ 1086401.
Proof.
  intros c1 r2. repeat split; try reflexivity. by vm_compute.
Qed.

Lemma rend_cache_store_duplicate_witness :
  let c1 := (@rend_cache_store Toy.crypto 1000500 Toy.desc_ab ∅).2 in
  let e := Toy.entry_ab 1000500 in
  cache_wf c1
  ∧ c1 !! Toy.service_id = Some e
  ∧ 1000600 - 86400 <= timestamp (parsed e) <= 1000600 + 5400
  ∧ @rend_cache_store Toy.crypto 1000600 (desc e) c1
    = (0, <[Toy.service_id := {| len := len e; desc := desc e;
                                 received := 1000600;
                                 parsed := parsed e |}]> c1).
Proof.
  intros c1 e.
  assert (cache_wf c1) as Hwf
    by (apply rend_cache_store_wf, rend_cache_init_wf).
  assert (c1 !! Toy.service_id = Some e) as He by reflexivity.
  assert (1000600 - 86400 <= timestamp (parsed e) <= 1000600 + 5400)
    as Hfresh by (cbn; lia).
  repeat (split; [assumption|]).
  exact (@rend_cache_store_duplicate Toy.crypto _ _ _ _ Hwf He Hfresh).
Defined.

Lemma rend_cache_store_rejected_unchanged_witness :
  (@rend_cache_store Toy.crypto 1086401 Toy.desc_ab ∅).1 = -1
  ∧ (@rend_cache_store Toy.crypto 1086401 Toy.desc_ab ∅).2 = ∅.
Proof.
  assert ((@rend_cache_store Toy.crypto 1086401 Toy.desc_ab ∅).1 = -1)
    as Hrej by reflexivity.
  exact (conj Hrej
    (@rend_cache_store_rejected_unchanged Toy.crypto _ _ _ Hrej)).
Defined.

(** C5, counterexample.  The cache after storing a descriptor of the key [A]
    holds it under the lowercase service ID ["y7sachr3lb2zfl6m"]; the query
    ["Y7SACHR3LB2ZFL6M"], the same ID in upper case, is answered -1, not
    with the entry.  (So is the example query ["ABCDEFGH23456789"].) *)
Lemma rend_cache_lookup_entry_upper_case :
  let c := (@rend_cache_store Toy.crypto 1000500 Toy.desc_ab ∅).2 in
  c !! "y7sachr3lb2zfl6m"%string = Some (Toy.entry_ab 1000500)
  ∧ rend_cache_lookup_entry "y7sachr3lb2zfl6m" c
    = (1, Some (Toy.entry_ab 1000500))
  ∧ tor_strlower "Y7SACHR3LB2ZFL6M" = "y7sachr3lb2zfl6m"%string
  ∧ rend_cache_lookup_entry "Y7SACHR3LB2ZFL6M" c = (-1, None)
  ∧ rend_cache_lookup_desc "Y7SACHR3LB2ZFL6M" c = (-1, None)
  ∧ rend_cache_lookup_entry "ABCDEFGH23456789" c = (-1, None).
Proof.
  intros c. repeat split; reflexivity.
Qed.

Lemma rend_cache_lookup_entry_letter_case_witness :
  let c := (@rend_cache_store Toy.crypto 1000500 Toy.desc_ab ∅).2 in
  c !! "y7sachr3lb2zfl6m"%string = Some (Toy.entry_ab 1000500)
  ∧ rend_valid_service_id "y7sachr3lb2zfl6m" = true
  ∧ tor_strlower "Y7SACHR3LB2ZFL6M" = "y7sachr3lb2zfl6m"%string
  ∧ rend_cache_lookup_entry "Y7SACHR3LB2ZFL6M" c = (-1, None).
Proof.
  intros c.
  assert (c !! "y7sachr3lb2zfl6m"%string = Some (Toy.entry_ab 1000500))
    as He by reflexivity.
  assert (rend_valid_service_id "y7sachr3lb2zfl6m" = true) as Hid
    by reflexivity.
  assert (tor_strlower "Y7SACHR3LB2ZFL6M" = "y7sachr3lb2zfl6m"%string)
    as Hlc by reflexivity.
  repeat (split; [assumption|]).
  apply (@rend_cache_lookup_entry_letter_case Toy.crypto _ _ _ _ He Hid Hlc).
  discriminate.
Defined.

Lemma rend_cache_store_seq_monotone_witness :
  let calls := [(1000500, Toy.desc_ab); (1000600, Toy.desc_newer);
                (1090000, Toy.desc_ab)] in
  let c0 : gmap string (@rend_cache_entry_t Toy.crypto) := ∅ in
  Forall (λ call, @presents Toy.crypto Toy.service_id call.2) calls
  ∧ (∀ e0, strmap_get_lc c0 Toy.service_id = Some e0 →
           entry_wf (tor_strlower Toy.service_id) e0)
  ∧ (@rend_cache_store_seq Toy.crypto calls c0).1 = [0; 0; -1]
  ∧ ∃ e, strmap_get_lc (@rend_cache_store_seq Toy.crypto calls c0).2
           Toy.service_id = Some e
         ∧ timestamp (parsed e) = 1000010.
Proof.
  intros calls c0.
  assert (Forall (λ call, @presents Toy.crypto Toy.service_id call.2) calls)
    as Hcalls
    by (repeat constructor;
        [apply toy_presents_ab | apply toy_presents_newer
        | apply toy_presents_ab]).
  assert (∀ e0, strmap_get_lc c0 Toy.service_id = Some e0 →
                entry_wf (tor_strlower Toy.service_id) e0) as Hslot.
  { intros e0 He0. unfold strmap_get_lc, c0 in He0.
    by rewrite lookup_empty in He0. }
  split; [exact Hcalls|]. split; [exact Hslot|].
  destruct (@rend_cache_store_seq_monotone Toy.crypto calls c0 Toy.service_id
              Hcalls Hslot) as (Hret & _ & _ & Hmax & _).
  split; [rewrite Hret; reflexivity|].
  destruct Hmax as (e & He & Hin & Hle); [by vm_compute|].
  exists e. split; [exact He|].
  assert (1000010 <= timestamp (parsed e)) as Hlow.
  { apply Hle. change (1000010 ∈ [1000000; 1000010]).
    apply list_elem_of_further, list_elem_of_here. }
  assert (timestamp (parsed e) ∈ [1000000; 1000010]) as Hin' by exact Hin.
  apply elem_of_cons in Hin' as [Heq|Hin']; [lia|].
  by apply list_elem_of_singleton in Hin'.
Defined.

(** ** The scenarios of the specification, run on the model *)

(** S1: a descriptor signed at 1000000 and stored at 1000500 is accepted, and
    the lookup of its service ID gives its bytes back, all 24 of them. *)
Example scenario_store_then_lookup :
  let r := @rend_cache_store Toy.crypto 1000500 Toy.desc_ab ∅ in
  r.1 = 0
  ∧ rend_cache_lookup_desc Toy.service_id r.2 = (1, Some (Toy.desc_ab, 24)).
Proof. split; reflexivity. Qed.

(** S2: the same bytes a day and a second after the timestamp are stale. *)
Example scenario_stale :
  (@rend_cache_store Toy.crypto (1000000 + 86401) Toy.desc_ab ∅).1 = -1.
Proof. reflexivity. Qed.

(** S3: the newer descriptor first, the older second: the second call
    returns 0 and the lookup still gives the newer bytes. *)
Example scenario_newer_then_older :
  let c1 := (@rend_cache_store Toy.crypto 1000500 Toy.desc_newer ∅).2 in
  let r2 := @rend_cache_store Toy.crypto 1000600 Toy.desc_ab c1 in
  r2.1 = 0
  ∧ rend_cache_lookup_desc Toy.service_id r2.2
    = (1, Some (Toy.desc_newer, 24)).
Proof. split; reflexivity. Qed.

(** S4: one bit of the second-to-last byte flipped. *)
Example scenario_flipped_signature_bit :
  Toy.desc_ab !! 22%nat = Some x7b
  ∧ @rend_parse_service_descriptor Toy.crypto (<[22%nat := x7a]> Toy.desc_ab)
    = ParseErr BadSignature.
Proof. split; reflexivity. Qed.

(** S5: no intro points. *)
Example scenario_no_intro_points :
  @rend_parse_service_descriptor Toy.crypto
    (Toy.encoded (Toy.descriptor x41 1000000 []))
  = ParseOk (Toy.descriptor x41 1000000 []).
Proof. reflexivity. Qed.

(** Cleaning at the boundary: an entry with timestamp 1000000 survives
    [rend_cache_clean] at 1086400 and is removed one second later. *)
Example scenario_clean_boundary :
  let c := (@rend_cache_store Toy.crypto 1000500 Toy.desc_ab ∅).2 in
  rend_cache_clean 1086400 c !! Toy.service_id = Some (Toy.entry_ab 1000500)
  ∧ rend_cache_clean 1086401 c !! Toy.service_id = None.
Proof. split; reflexivity. Qed.

(** * Further properties of the code *)

(** ** Reading the wire format back *)

Lemma byte_of_Z_of_byte b : byte_of_Z (Z_of_byte b) = b.
Proof.
  unfold byte_of_Z. pose proof (Z_of_byte_range b) as Hb.
  rewrite Z.mod_small by done. unfold Z_of_byte.
  by rewrite N2Z.id, Byte.of_to_N.
Qed.

Lemma byte_of_Z_mod z : byte_of_Z (z mod 256) = byte_of_Z z.
Proof. unfold byte_of_Z. by rewrite Z.mod_mod by lia. Qed.

Lemma ntohs_get_uint16_range cp : 0 <= ntohs_get_uint16 cp < 65536.
Proof.
  destruct cp as [|b0 [|b1 ?]]; simpl; try lia.
  pose proof (Z_of_byte_range b0). pose proof (Z_of_byte_range b1). lia.
Qed.

Lemma ntohl_get_uint32_range cp : 0 <= ntohl_get_uint32 cp < 4294967296.
Proof.
  destruct cp as [|b0 [|b1 [|b2 [|b3 ?]]]]; simpl; try lia.
  pose proof (Z_of_byte_range b0). pose proof (Z_of_byte_range b1).
  pose proof (Z_of_byte_range b2). pose proof (Z_of_byte_range b3). lia.
Qed.

Lemma set_uint16_ntohs b0 b1 cp :
  set_uint16_htons (ntohs_get_uint16 (b0 :: b1 :: cp)) = [b0; b1].
Proof.
  pose proof (ntohs_get_uint16_range (b0 :: b1 :: cp)) as Hr.
  unfold set_uint16_htons. rewrite Z.mod_small by done.
  unfold ntohs_get_uint16 in *.
  pose proof (Z_of_byte_range b0). pose proof (Z_of_byte_range b1).
  rewrite <-(byte_of_Z_mod (256 * _ + _)).
  replace ((256 * Z_of_byte b0 + Z_of_byte b1) / 256) with (Z_of_byte b0)
    by (apply Z.div_unique with (r := Z_of_byte b1); lia).
  replace ((256 * Z_of_byte b0 + Z_of_byte b1) mod 256) with (Z_of_byte b1)
    by (apply Z.mod_unique with (q := Z_of_byte b0); lia).
  by rewrite !byte_of_Z_of_byte.
Qed.

Lemma set_uint32_ntohl b0 b1 b2 b3 cp :
  set_uint32_htonl (ntohl_get_uint32 (b0 :: b1 :: b2 :: b3 :: cp))
  = [b0; b1; b2; b3].
Proof.
  pose proof (ntohl_get_uint32_range (b0 :: b1 :: b2 :: b3 :: cp)) as Hr.
  unfold set_uint32_htonl. rewrite Z.mod_small by done.
  unfold ntohl_get_uint32 in *.
  pose proof (Z_of_byte_range b0). pose proof (Z_of_byte_range b1).
  pose proof (Z_of_byte_range b2). pose proof (Z_of_byte_range b3).
  set (v := 16777216 * Z_of_byte b0 + 65536 * Z_of_byte b1
            + 256 * Z_of_byte b2 + Z_of_byte b3) in *.
  rewrite <-(byte_of_Z_mod (v / 65536)), <-(byte_of_Z_mod (v / 256)),
    <-(byte_of_Z_mod v).
  replace (v / 16777216) with (Z_of_byte b0)
    by (apply Z.div_unique
          with (r := 65536 * Z_of_byte b1 + 256 * Z_of_byte b2 + Z_of_byte b3);
        lia).
  replace (v / 65536) with (256 * Z_of_byte b0 + Z_of_byte b1)
    by (apply Z.div_unique
          with (r := 256 * Z_of_byte b2 + Z_of_byte b3); lia).
  replace (v / 256)
    with (65536 * Z_of_byte b0 + 256 * Z_of_byte b1 + Z_of_byte b2)
    by (apply Z.div_unique with (r := Z_of_byte b3); lia).
  replace ((256 * Z_of_byte b0 + Z_of_byte b1) mod 256) with (Z_of_byte b1)
    by (apply Z.mod_unique with (q := Z_of_byte b0); lia).
  replace ((65536 * Z_of_byte b0 + 256 * Z_of_byte b1 + Z_of_byte b2) mod 256)
    with (Z_of_byte b2)
    by (apply Z.mod_unique
          with (q := 256 * Z_of_byte b0 + Z_of_byte b1); lia).
  replace (v mod 256) with (Z_of_byte b3)
    by (apply Z.mod_unique
          with (q := 65536 * Z_of_byte b0 + 256 * Z_of_byte b1 + Z_of_byte b2);
        lia).
  by rewrite !byte_of_Z_of_byte.
Qed.

Lemma uint16_head cp :
  (2 <= length cp)%nat →
  set_uint16_htons (ntohs_get_uint16 cp) ++ drop 2 cp = cp.
Proof.
  destruct cp as [|b0 [|b1 r]]; [simpl; lia..|]. intros _.
  by rewrite set_uint16_ntohs.
Qed.

Lemma uint32_head cp :
  (4 <= length cp)%nat →
  set_uint32_htonl (ntohl_get_uint32 cp) ++ drop 4 cp = cp.
Proof.
  destruct cp as [|b0 [|b1 [|b2 [|b3 r]]]]; [simpl; lia..|]. intros _.
  by rewrite set_uint32_ntohl.
Qed.

Lemma memchr_nul_split cp eos :
  memchr_nul cp = Some eos →
  cp = take eos cp ++ x00 :: drop (S eos) cp
  ∧ Forall (λ b, b ≠ x00) (take eos cp).
Proof.
  revert eos. induction cp as [|b cp IH]; intros eos; simpl; [done|].
  case_decide as Hb.
  - intros [= <-]. subst b. simpl. by rewrite drop_0.
  - destruct (memchr_nul cp) as [i|]; simpl; [|done].
    intros [= <-]. destruct (IH i eq_refl) as [Hcp Hnul]. simpl.
    split; [by f_equal|by constructor].
Qed.

Section CodecInversion.
Context `{Crypto}.

(** What the loop over the intro points has read when it succeeds. *)
Lemma parse_intro_points_inv n cp ips cp' :
  parse_intro_points n cp = Some (ips, cp') →
  cp = encode_intro_points ips ++ cp'
  ∧ length ips = n
  ∧ Forall (Forall (λ b, b ≠ x00)) ips.
Proof.
  revert cp ips. induction n as [|n IH]; intros cp ips; simpl.
  - by intros [= <- <-].
  - case_decide; [done|].
    destruct (memchr_nul cp) as [eos|] eqn:Heos; [|done].
    destruct (parse_intro_points n (drop (S eos) cp))
      as [[ips0 cp0]|] eqn:Hrec; [|done].
    intros [= <- <-]. destruct (IH _ _ Hrec) as (Hrest & Hlen & Hnul).
    destruct (memchr_nul_split _ _ Heos) as [Hcp Hs].
    assert (c_str cp = take eos cp) as Hstr by (unfold c_str; by rewrite Heos).
    rewrite Hstr. split; [|split; [simpl; by f_equal|by constructor]].
    unfold encode_intro_points in *. cbn [map concat].
    rewrite (c_str_nonul _ Hs), <-!(assoc_L (++)). cbn [app].
    by rewrite <-Hrest.
Qed.

(** What the header steps have read when they succeed. *)
Lemma parse_header_inv str key ts n cp :
  parse_header str = Some (key, ts, n, cp) →
  let asn1 := take (Z.to_nat (ntohs_get_uint16 str)) (drop 2 str) in
  str = set_uint16_htons (Z.of_nat (length asn1)) ++ asn1
        ++ set_uint32_htonl ts ++ set_uint16_htons n ++ cp
  ∧ Z.of_nat (length asn1) < 65536
  ∧ crypto_pk_asn1_decode asn1 = Some key
  ∧ 0 <= ts < 4294967296
  ∧ 0 <= n < 65536.
Proof.
  intros Hh asn1. unfold parse_header in Hh.
  pose proof (ntohs_get_uint16_range str) as Hr.
  destruct (decide (Z.of_nat (length str) < 2)) as [|H2]; [done|].
  destruct (decide (Z.of_nat (length (drop 2 str)) < _)) as [|Ha]; [done|].
  destruct (crypto_pk_asn1_decode _) as [key'|] eqn:Hkey; [|done].
  destruct (decide (Z.of_nat (length (drop _ (drop 2 str))) < 4))
    as [|H4]; [done|].
  destruct (decide (Z.of_nat (length (drop 4 _)) < 2)) as [|H2']; [done|].
  injection Hh as <- <- <- <-.
  assert (Z.of_nat (length asn1) = ntohs_get_uint16 str) as Hlen.
  { unfold asn1. rewrite length_take, length_drop in *. lia. }
  split; [|split; [lia|split; [done|]]].
  - rewrite uint16_head by lia. rewrite uint32_head by lia.
    unfold asn1 at 2. rewrite take_drop, Hlen. rewrite uint16_head by lia.
    done.
  - split; [apply ntohl_get_uint32_range|apply ntohs_get_uint16_range].
Qed.

(** The header of a well-laid-out buffer. *)
Lemma parse_header_layout asn1 key ts n cp :
  Z.of_nat (length asn1) < 65536 →
  crypto_pk_asn1_decode asn1 = Some key →
  0 <= ts < 4294967296 →
  0 <= n < 65536 →
  parse_header (set_uint16_htons (Z.of_nat (length asn1)) ++ asn1
                ++ set_uint32_htonl ts ++ set_uint16_htons n ++ cp)
  = Some (key, ts, n, cp).
Proof.
  intros Hlen Hkey Hts Hn. rewrite (parse_header_encode _ _ _ _ _ Hlen Hkey).
  by rewrite !Z.mod_small by done.
Qed.

(** Everything a successful parse says about the buffer and the result. *)
Lemma rend_parse_service_descriptor_inv str d :
  rend_parse_service_descriptor str = ParseOk d →
  let asn1 := take (Z.to_nat (ntohs_get_uint16 str)) (drop 2 str) in
  let keylen := Z.to_nat (crypto_pk_keysize (pk d)) in
  let sig := drop (length str - keylen) str in
  descriptor_wf d
  ∧ 0 <= timestamp d < 4294967296
  ∧ str = encode_payload d asn1 ++ sig
  ∧ Z.of_nat (length asn1) < 65536
  ∧ crypto_pk_asn1_decode asn1 = Some (pk d)
  ∧ Z.of_nat (length sig) = crypto_pk_keysize (pk d)
  ∧ crypto_pk_public_checksig_digest (pk d) (encode_payload d asn1) sig
    = true.
Proof.
  intros Hok asn1 keylen sig.
  rewrite rend_parse_service_descriptor_steps in Hok.
  destruct (parse_header str) as [[[[key ts] n] cp]|] eqn:Hhdr; [|done].
  destruct (parse_intro_points (Z.to_nat n) cp)
    as [[ips cp']|] eqn:Hloop; [|done].
  destruct (parse_header_inv _ _ _ _ _ Hhdr)
    as (Hstr & Hlen & Hkey & Hts & Hn). fold asn1 in Hstr, Hlen, Hkey.
  destruct (parse_intro_points_inv _ _ _ _ Hloop) as (Hcp & Hcount & Hnul).
  unfold parse_tail in Hok.
  destruct (decide (Z.of_nat (length cp') < _)) as [|Hlo]; [done|].
  destruct (decide (Z.of_nat (length cp') > _)) as [|Hhi]; [done|].
  destruct (crypto_pk_public_checksig_digest _ _ _) eqn:Hchk; [|done].
  injection Hok as <-. cbn [pk timestamp n_intro_points intro_points] in *.
  assert (length cp' = keylen) as Hk by (unfold keylen; lia).
  assert (str = encode_payload
                  {| pk := key; timestamp := ts; n_intro_points := n;
                     intro_points := ips |} asn1 ++ cp') as Hlayout.
  { unfold encode_payload, visited_intro_points.
    cbn [pk timestamp n_intro_points intro_points].
    rewrite take_ge by lia. rewrite <-!(assoc_L (++)), <-Hcp. exact Hstr. }
  assert (length str - keylen = length (encode_payload
            {| pk := key; timestamp := ts; n_intro_points := n;
               intro_points := ips |} asn1))%nat as Hpl.
  { rewrite Hlayout at 1. rewrite length_app. lia. }
  assert (sig = cp') as Hsig.
  { unfold sig. rewrite Hpl. rewrite Hlayout at 1. apply drop_app_length. }
  rewrite Hsig. split; [repeat split; cbn; [lia|lia|done]|].
  split; [done|]. split; [done|]. split; [done|]. split; [done|].
  split; [lia|].
  rewrite <-Hchk. f_equal. rewrite Hk, Hpl. symmetry.
  rewrite Hlayout at 1. apply take_app_length.
Qed.
End CodecInversion.

(** ** The codec beyond the round trip *)

Section CodecExtras.
Context `{Crypto}.

(** X1.  Whatever [rend_parse_service_descriptor] returns satisfies the
    invariant of the data model: the count is the number of intro points
    read and is below 65536, no intro point holds a NUL byte, and the
    timestamp is in the range of the 32-bit field. *)
Theorem rend_parse_result_wf str d :
  rend_parse_service_descriptor str = ParseOk d →
  descriptor_wf d ∧ 0 <= timestamp d < 4294967296.
Proof.
  intros Hok. destruct (rend_parse_service_descriptor_inv _ _ Hok)
    as (Hwf & Hts & _). by split.
Qed.

(** X2.  The buffers the parser accepts, exactly: for a key with a modulus
    of at least one byte, [str] parses to [d] if and only if [d] satisfies
    the data-model invariant with a 32-bit timestamp and [str] is the wire
    layout of [d] (length, ASN.1 key, timestamp, count, NUL-terminated intro
    points) for ASN.1 bytes that decode to the key of [d], followed by a
    signature of the modulus length that checks over the layout. *)
Theorem rend_parse_accepts_iff str d :
  0 < crypto_pk_keysize (pk d) →
  rend_parse_service_descriptor str = ParseOk d
  ↔ (descriptor_wf d
     ∧ 0 <= timestamp d < 4294967296
     ∧ ∃ asn1 sig,
         str = encode_payload d asn1 ++ sig
         ∧ Z.of_nat (length asn1) < 65536
         ∧ crypto_pk_asn1_decode asn1 = Some (pk d)
         ∧ Z.of_nat (length sig) = crypto_pk_keysize (pk d)
         ∧ crypto_pk_public_checksig_digest (pk d)
             (encode_payload d asn1) sig = true).
Proof.
  intros Hks. split.
  - intros Hok. destruct (rend_parse_service_descriptor_inv _ _ Hok)
      as (Hwf & Hts & Hstr & Hlen & Hkey & Hsig & Hchk).
    split; [done|]. split; [done|]. by eexists _, _.
  - intros (Hwf & Hts & asn1 & sig & -> & Hlen & Hkey & Hsig & Hchk).
    rewrite rend_parse_encode_payload by done.
    rewrite Z.mod_small by done. by destruct d.
Qed.

(** X3.  Parse, then encode: if [str] parses to [d], and the crypto layer
    encodes the key of [d] to the ASN.1 bytes [str] carries and signs the
    payload of [str] with the signature [str] ends in, then
    [rend_encode_service_descriptor d key] returns [str] and its length. *)
Theorem rend_parse_encode_roundtrip str d key :
  let keylen := Z.to_nat (crypto_pk_keysize (pk d)) in
  rend_parse_service_descriptor str = ParseOk d →
  crypto_pk_asn1_encode (pk d) (crypto_pk_keysize (pk d) * 2)
  = Some (take (Z.to_nat (ntohs_get_uint16 str)) (drop 2 str)) →
  crypto_pk_private_sign_digest key (take (length str - keylen) str)
  = Some (drop (length str - keylen) str) →
  rend_encode_service_descriptor d key = EncodeOk str (Z.of_nat (length str)).
Proof.
  intros keylen Hok Hasn1 Hsign.
  destruct (rend_parse_service_descriptor_inv _ _ Hok)
    as (_ & _ & Hstr & _ & _ & Hsig & _). fold keylen in Hstr, Hsig.
  set (asn1 := take _ (drop 2 str)) in *.
  set (sig := drop (length str - keylen) str) in *.
  assert (take (length str - keylen) str = encode_payload d asn1) as Hpay.
  { rewrite Hstr at 2. apply take_app_length'.
    rewrite Hstr at 1. rewrite length_app. lia. }
  rewrite Hpay in Hsign.
  rewrite (rend_encode_service_descriptor_ok _ _ _ _ Hasn1 Hsign Hsig).
  by rewrite <-Hstr.
Qed.

(** X4.  A tampered signature: if [str] parses, replacing its signature by
    other bytes of the same length that the crypto layer does not accept
    over the same payload makes the parser fail with [BadSignature], not
    with [Truncated] or [TrailingJunk]. *)
Theorem rend_parse_bad_signature str d sig' :
  let keylen := Z.to_nat (crypto_pk_keysize (pk d)) in
  let payload := take (length str - keylen) str in
  rend_parse_service_descriptor str = ParseOk d →
  Z.of_nat (length sig') = crypto_pk_keysize (pk d) →
  crypto_pk_public_checksig_digest (pk d) payload sig' = false →
  rend_parse_service_descriptor (payload ++ sig') = ParseErr BadSignature.
Proof.
  intros keylen payload Hok Hlen' Hbad.
  destruct (rend_parse_service_descriptor_inv _ _ Hok)
    as ((Hn & Hn16 & Hnul) & Hts & Hstr & Hlen & Hkey & Hsig & Hchk).
  fold keylen in Hstr, Hsig, Hchk.
  set (asn1 := take _ (drop 2 str)) in *.
  set (sig := drop (length str - keylen) str) in *.
  assert (payload = encode_payload d asn1) as Hpay.
  { unfold payload. rewrite Hstr at 2. apply take_app_length'.
    rewrite Hstr at 1. rewrite length_app. lia. }
  rewrite Hpay in *.
  destruct sig' as [|b sig'].
  { assert (sig = []) as Hnil by (apply length_zero_iff_nil; simpl in *; lia).
    rewrite Hnil in Hchk. congruence. }
  rewrite rend_parse_service_descriptor_steps.
  assert (visited_intro_points d = intro_points d) as Hvis
    by (unfold visited_intro_points; apply take_ge; lia).
  unfold encode_payload at 1. rewrite Hvis, <-!(assoc_L (++)).
  rewrite (parse_header_layout asn1 (pk d)) by (done || lia).
  rewrite Hn at 1. rewrite Nat2Z.id.
  rewrite parse_intro_points_encode by (done || (simpl; lia)).
  unfold parse_tail. cbn [pk].
  rewrite decide_False by lia. rewrite decide_False by lia.
  by rewrite length_app, Nat.add_sub, take_app_length, Hbad.
Qed.

(** X5.  Short buffers: every buffer of fewer than eight bytes, the empty
    one included, is refused as [Truncated], whatever the crypto layer
    makes of its bytes. *)
Theorem rend_parse_short_truncated str :
  (length str < 8)%nat →
  rend_parse_service_descriptor str = ParseErr Truncated.
Proof.
  intros Hshort. rewrite rend_parse_service_descriptor_steps.
  destruct (parse_header str) as [[[[key ts] n] cp]|] eqn:Hhdr; [|done].
  destruct (parse_header_inv _ _ _ _ _ Hhdr) as (Hstr & _).
  apply (f_equal length) in Hstr. rewrite !length_app in Hstr.
  simpl in Hstr. lia.
Qed.

(** X6.  What the encoder writes.  For a descriptor whose count is the
    number of its intro points, fits 16 bits, and whose intro points are C
    strings: when [rend_encode_service_descriptor] succeeds, the length it
    reports is the length of the buffer, and the buffer holds, in this
    order, two bytes with the length of the ASN.1 encoding of the public
    key (big-endian, modulo 65536), those ASN.1 bytes, four bytes with the
    timestamp (big-endian, modulo 2^32), two bytes with the count of intro
    points (big-endian), every intro point followed by a NUL byte, and last
    the signature [key] makes of all the bytes before it, which is as long
    as the modulus. *)
Theorem rend_encode_service_descriptor_output d key str n :
  descriptor_wf d →
  rend_encode_service_descriptor d key = EncodeOk str n →
  n = Z.of_nat (length str)
  ∧ ∃ asn1 sig a1 a0 t3 t2 t1 t0 c1 c0,
      crypto_pk_asn1_encode (pk d) (crypto_pk_keysize (pk d) * 2) = Some asn1
      ∧ str = [a1; a0] ++ asn1 ++ [t3; t2; t1; t0] ++ [c1; c0]
              ++ concat (map (λ ipoint, ipoint ++ [x00]) (intro_points d))
              ++ sig
      ∧ 256 * Z_of_byte a1 + Z_of_byte a0
        = Z.of_nat (length asn1) mod 65536
      ∧ 16777216 * Z_of_byte t3 + 65536 * Z_of_byte t2
        + 256 * Z_of_byte t1 + Z_of_byte t0
        = timestamp d mod 4294967296
      ∧ 256 * Z_of_byte c1 + Z_of_byte c0 = n_intro_points d
      ∧ crypto_pk_private_sign_digest key
          (take (length str - length sig) str) = Some sig
      ∧ Z.of_nat (length sig) = crypto_pk_keysize (pk d).
Proof.
  intros (Hn & Hn16 & Hnul).
  unfold rend_encode_service_descriptor.
  destruct (crypto_pk_asn1_encode _ _) as [asn1|] eqn:Hasn1; [|done].
  destruct (crypto_pk_private_sign_digest _ _) as [sig|] eqn:Hsig; [|done].
  rewrite encode_len_out. pose proof (length_encode_payload d asn1) as Hpl.
  case_decide as Hlen; [|done].
  assert (encode_payload d asn1
          = set_uint16_htons (Z.of_nat (length asn1)) ++ asn1
            ++ set_uint32_htonl (timestamp d)
            ++ set_uint16_htons (n_intro_points d)
            ++ concat (map (λ ipoint, ipoint ++ [x00]) (intro_points d)))
    as Hlayout.
  { unfold encode_payload, visited_intro_points, encode_intro_points.
    rewrite Hn, Nat2Z.id, firstn_all. do 5 f_equal.
    clear -Hnul. induction Hnul as [|ip ips Hip _ IH]; [done|].
    cbn [map]. by rewrite IH, (c_str_nonul _ Hip). }
  remember (encode_payload d asn1) as payload eqn:Hpay.
  intros [= <- <-].
  split; [rewrite length_app; lia|].
  exists asn1, sig.
  exists (byte_of_Z (Z.of_nat (length asn1) mod 65536 / 256)),
    (byte_of_Z (Z.of_nat (length asn1) mod 65536)),
    (byte_of_Z (timestamp d mod 4294967296 / 16777216)),
    (byte_of_Z (timestamp d mod 4294967296 / 65536)),
    (byte_of_Z (timestamp d mod 4294967296 / 256)),
    (byte_of_Z (timestamp d mod 4294967296)),
    (byte_of_Z (n_intro_points d mod 65536 / 256)),
    (byte_of_Z (n_intro_points d mod 65536)).
  split; [done|]. split.
  { rewrite Hlayout. unfold set_uint16_htons, set_uint32_htonl.
    cbv zeta. by rewrite <-!app_assoc. }
  split; [exact (ntohs_set_uint16 (Z.of_nat (length asn1)) [])|].
  split; [exact (ntohl_set_uint32 (timestamp d) [])|].
  split.
  { rewrite <-(Z.mod_small (n_intro_points d) 65536) at 3 by lia.
    exact (ntohs_set_uint16 (n_intro_points d) []). }
  split; [|lia].
  by rewrite length_app, Nat.add_sub, take_app_length.
Qed.

(** X7.  The assertion of the encoder, that the length computed beforehand
    is the number of bytes written, fails exactly when the key was encoded,
    the payload was signed, and the signature has not the length of the
    modulus. *)
Theorem rend_encode_service_descriptor_assert d key :
  rend_encode_service_descriptor d key = EncodeAssertFail
  ↔ ∃ asn1 sig,
      crypto_pk_asn1_encode (pk d) (crypto_pk_keysize (pk d) * 2) = Some asn1
      ∧ crypto_pk_private_sign_digest key (encode_payload d asn1) = Some sig
      ∧ Z.of_nat (length sig) ≠ crypto_pk_keysize (pk d).
Proof.
  unfold rend_encode_service_descriptor. split.
  - destruct (crypto_pk_asn1_encode _ _) as [asn1|] eqn:Hasn1; [|done].
    destruct (crypto_pk_private_sign_digest _ _) as [sig|] eqn:Hsig; [|done].
    rewrite encode_len_out. pose proof (length_encode_payload d asn1) as Hpl.
    case_decide as Hlen; [done|]. intros _.
    exists asn1, sig. repeat split; try done. lia.
  - intros (asn1 & sig & -> & -> & Hne).
    rewrite encode_len_out. pose proof (length_encode_payload d asn1) as Hpl.
    case_decide as Hlen; [lia|done].
Qed.
End CodecExtras.

(** ** Service IDs, lookups and the cache beyond single stores *)

Lemma strspn_full_iff s accept :
  strspn s accept = Z.of_nat (String.length s)
  ↔ Forall (λ ch, strchr accept ch = true) (list_ascii_of_string s).
Proof.
  induction s as [|ch s IH]; cbn [strspn String.length list_ascii_of_string].
  - split; [constructor|done].
  - destruct (strchr accept ch) eqn:Hch.
    + rewrite Forall_cons. split.
      * intros Hlen. split; [done|]. apply IH. lia.
      * intros [_ Hall]. apply IH in Hall. lia.
    + split; [lia|]. intros Hall. apply Forall_cons in Hall as [Hch' _].
      congruence.
Qed.

(** X8.  A query is a valid service ID exactly when it has 16 characters and
    each of them is a character of [BASE32_CHARS]; the empty string, longer
    and shorter strings and strings with any other character are not. *)
Theorem rend_valid_service_id_iff query :
  rend_valid_service_id query = true
  ↔ String.length query = 16%nat
    ∧ Forall (λ ch, strchr BASE32_CHARS ch = true)
        (list_ascii_of_string query).
Proof.
  unfold rend_valid_service_id, REND_SERVICE_ID_LEN. split.
  - case_decide as Hlen; [done|]. case_decide as Hspn; [done|]. intros _.
    split; [lia|]. apply strspn_full_iff. lia.
  - intros [Hlen Hall]. apply strspn_full_iff in Hall.
    rewrite decide_False by lia. by rewrite decide_False by lia.
Qed.

Section CacheExtras.
Context `{Crypto}.
Implicit Types (c : gmap string rend_cache_entry_t) (e : rend_cache_entry_t).

(** X9.  The three answers of [rend_cache_lookup_entry]: it answers -1
    exactly for the queries that are not valid service IDs, whatever the
    cache holds; for a valid query it answers 1 with the entry filed under
    that very string, or 0 when there is none. *)
Theorem rend_cache_lookup_entry_cases query c :
  ((rend_cache_lookup_entry query c).1 = -1
   ↔ rend_valid_service_id query = false)
  ∧ (rend_valid_service_id query = true →
     rend_cache_lookup_entry query c
     = match c !! query with
       | Some e => (1, Some e)
       | None => (0, None)
       end).
Proof.
  unfold rend_cache_lookup_entry, strmap_get_lc.
  destruct (rend_valid_service_id query) eqn:Hq; simpl.
  - rewrite (rend_valid_service_id_strlower _ Hq).
    split; [|done]. destruct (c !! query); simpl; split; done.
  - split; [done|done].
Qed.

(** X10.  What a lookup serves: the bytes and length that
    [rend_cache_lookup_desc] hands out from a well-formed cache are a
    buffer of exactly that length that parses and verifies, and the service
    ID of its key is the query up to letter case. *)
Theorem rend_cache_lookup_desc_served query c bytes n :
  cache_wf c →
  rend_cache_lookup_desc query c = (1, Some (bytes, n)) →
  n = Z.of_nat (length bytes)
  ∧ ∃ p id, rend_parse_service_descriptor bytes = ParseOk p
            ∧ rend_get_service_id (pk p) = Some id
            ∧ tor_strlower id = query.
Proof.
  intros Hwf. unfold rend_cache_lookup_desc, rend_cache_lookup_entry.
  destruct (rend_valid_service_id query) eqn:Hq; simpl; [|done].
  unfold strmap_get_lc. rewrite (rend_valid_service_id_strlower _ Hq).
  destruct (c !! query) as [e|] eqn:He; [|done].
  rewrite decide_False by lia. intros [= <- <-].
  destruct (Hwf _ _ He) as (Hlen & Hp & id & Hid & Hkey).
  split; [done|]. by exists (parsed e), id.
Qed.

(** X11.  Store, then look up: after [rend_cache_store] is given a fresh
    descriptor whose service ID is a valid ID, and the well-formed cache held
    nothing newer for that ID, [rend_cache_lookup_desc] of the ID returns 1
    with the very bytes stored and their length. *)
Theorem rend_cache_store_lookup now d c p query :
  rend_parse_service_descriptor d = ParseOk p →
  rend_get_service_id (pk p) = Some query →
  rend_valid_service_id query = true →
  now - 86400 <= timestamp p <= now + 5400 →
  cache_wf c →
  (∀ e, c !! query = Some e → timestamp (parsed e) <= timestamp p) →
  rend_cache_lookup_desc query (rend_cache_store now d c).2
  = (1, Some (d, Z.of_nat (length d))).
Proof.
  intros Hp Hq Hvalid Hfresh Hwf Hold.
  rewrite (rend_cache_store_parsed _ _ _ _ _ Hp Hq).
  unfold REND_CACHE_MAX_AGE, REND_CACHE_MAX_SKEW.
  rewrite decide_False by lia. rewrite decide_False by lia. cbv zeta.
  unfold rend_cache_lookup_desc, rend_cache_lookup_entry.
  rewrite Hvalid. simpl. unfold strmap_get_lc, strmap_set_lc.
  rewrite (rend_valid_service_id_strlower _ Hvalid).
  destruct (c !! query) as [e|] eqn:He.
  - specialize (Hold _ eq_refl). rewrite decide_False by lia.
    destruct (Hwf _ _ He) as (Hlen & _).
    case_decide as Hsame; simpl; rewrite lookup_insert_eq; simpl; [|done].
    apply same_bytes_iff in Hsame; [|done]. subst d. by rewrite Hlen.
  - simpl. by rewrite lookup_insert_eq.
Qed.

(** X12.  The one slot a store can touch: if [rend_cache_store] changes what
    the cache holds under some key, the bytes it was given parse and verify,
    and that key is the lowercase service ID of their key. *)
Theorem rend_cache_store_frame now d c key :
  (rend_cache_store now d c).2 !! key ≠ c !! key →
  ∃ p query, rend_parse_service_descriptor d = ParseOk p
             ∧ rend_get_service_id (pk p) = Some query
             ∧ key = tor_strlower query.
Proof.
  unfold rend_cache_store.
  destruct (rend_parse_service_descriptor d) as [p|];
    [|intros Hchg; by destruct Hchg].
  destruct (rend_get_service_id (pk p)) as [query|] eqn:Hq;
    [|intros Hchg; by destruct Hchg].
  intros Hchg. exists p, query. split; [done|]. split; [done|].
  destruct (decide (key = tor_strlower query)) as [|Hne]; [done|].
  exfalso. apply Hchg. unfold strmap_set_lc.
  repeat case_decide; try done;
    destruct (strmap_get_lc c query);
    repeat case_decide; simpl; by rewrite ?lookup_insert_ne.
Qed.

(** With one clock reading, [rend_cache_store_clock] is
    [rend_cache_store]. *)
Lemma rend_cache_store_clock_same now d c :
  rend_cache_store_clock now now d c = rend_cache_store now d c.
Proof. done. Qed.

Lemma rend_cache_store_clock_wf now now' d c :
  cache_wf c → cache_wf (rend_cache_store_clock now now' d c).2.
Proof.
  intros Hwf. unfold rend_cache_store_clock.
  destruct (rend_parse_service_descriptor d) as [p|] eqn:Hp; [|done].
  destruct (rend_get_service_id (pk p)) as [query|] eqn:Hq; [|done].
  repeat (case_decide; [done|]).
  assert (∀ e, entry_wf (tor_strlower query) e →
            cache_wf (strmap_set_lc c query e)) as Hset.
  { intros e He key e'. unfold strmap_set_lc.
    destruct (decide (tor_strlower query = key)) as [<-|Hne].
    - rewrite lookup_insert_eq. by intros [= <-].
    - rewrite lookup_insert_ne by done. apply Hwf. }
  assert (entry_wf (tor_strlower query)
            {| len := Z.of_nat (length d); desc := d;
               received := now'; parsed := p |}) as Hfresh.
  { split; [done|]. split; [done|]. by exists query. }
  destruct (strmap_get_lc c query) as [e|] eqn:He; simpl; [|by apply Hset].
  case_decide; [done|].
  case_decide; simpl; apply Hset; [|done].
  apply Hwf in He. destruct He as (?&?&?). by repeat split.
Qed.

Lemma rend_cache_store_clock_fresh tick now now' d c :
  now <= now' <= now + tick →
  cache_wf c →
  map_Forall (λ _ e, timestamp (parsed e) <= received e + 5400
                     ∧ received e - timestamp (parsed e) <= 86400 + tick) c →
  map_Forall (λ _ e, timestamp (parsed e) <= received e + 5400
                     ∧ received e - timestamp (parsed e) <= 86400 + tick)
    (rend_cache_store_clock now now' d c).2.
Proof.
  intros Htick Hwf Hall. unfold rend_cache_store_clock.
  destruct (rend_parse_service_descriptor d) as [p|] eqn:Hp; [|done].
  destruct (rend_get_service_id (pk p)) as [query|]; [|done].
  unfold REND_CACHE_MAX_AGE, REND_CACHE_MAX_SKEW.
  case_decide as Hold; [done|]. case_decide as Hnew; [done|].
  unfold strmap_get_lc, strmap_set_lc.
  destruct (c !! tor_strlower query) as [e|] eqn:He.
  - case_decide; [done|].
    destruct (Hwf _ _ He) as (Hlen & Hpe & _).
    case_decide as Hsame; simpl; apply map_Forall_insert_2; try done;
      simpl; [|lia].
    apply same_bytes_iff in Hsame; [|done]. subst d.
    assert (parsed e = p) as -> by congruence. lia.
  - simpl. apply map_Forall_insert_2; [|done]. simpl; lia.
Qed.

Lemma rend_cache_clean_Forall (P : rend_cache_entry_t → Prop) now c :
  map_Forall (λ _ e, P e) c →
  map_Forall (λ _ e, P e) (rend_cache_clean now c).
Proof.
  intros Hall key e. rewrite rend_cache_clean_lookup.
  destruct (c !! key) as [e0|] eqn:He0; [|done].
  case_decide; [done|]. intros [= <-]. by apply (Hall key).
Qed.

(** X13.  The clock readings of a store kept apart: [received] is read
    from the clock after the freshness tests have read it.  If in every
    store of a run the clock does not go back between the two readings and
    advances by at most [tick] seconds, every entry of every cache reached
    from [rend_cache_init] by stores and cleanings has a timestamp at most
    5400 seconds after [received] and at most [86400 + tick] seconds before
    it. *)
Theorem rend_cache_run_clock_fresh calls tick :
  Forall (clock_within tick) calls →
  map_Forall
    (λ _ e, timestamp (parsed e) <= received e + 5400
            ∧ received e - timestamp (parsed e) <= 86400 + tick)
    (rend_cache_run_clock calls rend_cache_init).
Proof.
  intros Hcalls. unfold rend_cache_run_clock.
  assert (map_Forall
            (λ _ e, timestamp (parsed e) <= received e + 5400
                    ∧ received e - timestamp (parsed e) <= 86400 + tick)
            rend_cache_init) as Hinit
    by apply map_Forall_empty.
  revert Hinit. generalize rend_cache_init_wf. generalize rend_cache_init.
  induction Hcalls as [|call calls Hcall _ IH]; intros c Hwf Hall; [done|].
  destruct call as [now now' d|now]; simpl; apply IH.
  - by apply rend_cache_store_clock_wf.
  - by apply rend_cache_store_clock_fresh.
  - by apply rend_cache_clean_wf.
  - by apply (rend_cache_clean_Forall
                (λ e, timestamp (parsed e) <= received e + 5400
                      ∧ received e - timestamp (parsed e) <= 86400 + tick)).
Qed.

(** X14.  Cleaning twice is cleaning once at the later time. *)
Theorem rend_cache_clean_clean now1 now2 c :
  rend_cache_clean now2 (rend_cache_clean now1 c)
  = rend_cache_clean (Z.max now1 now2) c.
Proof.
  apply map_eq. intros key. rewrite !rend_cache_clean_lookup.
  destruct (c !! key) as [e|]; [|done].
  repeat case_decide; try done; lia.
Qed.

(** X15.  Cleaning only removes: what the cache holds after
    [rend_cache_clean] it held before, under the same key; and nothing at
    all changes exactly when no entry is older than the cutoff. *)
Theorem rend_cache_clean_subseteq now c :
  rend_cache_clean now c ⊆ c
  ∧ (rend_cache_clean now c = c
     ↔ map_Forall (λ _ e, now - 86400 <= timestamp (parsed e)) c).
Proof.
  change 86400 with REND_CACHE_MAX_AGE. split.
  - apply map_subseteq_spec. intros key e. rewrite rend_cache_clean_lookup.
    destruct (c !! key) as [e0|]; [|done]. by case_decide.
  - split.
    + intros Heq key e He. rewrite <-Heq, rend_cache_clean_lookup in He.
      destruct (c !! key) as [e0|]; [|done].
      case_decide; [done|]. injection He as <-. lia.
    + intros Hall. apply map_eq. intros key.
      rewrite rend_cache_clean_lookup.
      destruct (c !! key) as [e|] eqn:He; [|done].
      specialize (Hall _ _ He). simpl in Hall.
      by rewrite decide_False by lia.
Qed.

(** X16.  A store survives the next cleaning: after [rend_cache_store]
    accepted a descriptor (returned 0) into a well-formed cache, a
    [rend_cache_clean] at any time [now'] up to 86400 seconds after the
    descriptor's timestamp leaves an entry for its service ID in the cache,
    at least as recent as the descriptor. *)
Theorem rend_cache_store_then_clean now now' d c p query :
  cache_wf c →
  rend_parse_service_descriptor d = ParseOk p →
  rend_get_service_id (pk p) = Some query →
  (rend_cache_store now d c).1 = 0 →
  now' - 86400 <= timestamp p →
  ∃ e, rend_cache_clean now' (rend_cache_store now d c).2
         !! tor_strlower query = Some e
       ∧ timestamp p <= timestamp (parsed e).
Proof.
  intros Hwf Hp Hq Hacc Hnow'. revert Hacc.
  rewrite (rend_cache_store_parsed _ _ _ _ _ Hp Hq).
  case_decide; [done|]. case_decide; [done|]. cbv zeta. intros _.
  rewrite rend_cache_clean_lookup.
  unfold strmap_get_lc, strmap_set_lc, REND_CACHE_MAX_AGE.
  destruct (c !! tor_strlower query) as [e|] eqn:He.
  - destruct (Hwf _ _ He) as (Hlen & Hpe & _). case_decide.
    + simpl. rewrite He. rewrite decide_False by lia.
      exists e. split; [done|lia].
    + case_decide as Hsame; simpl; rewrite lookup_insert_eq; simpl.
      * apply same_bytes_iff in Hsame; [|done]. subst d.
        assert (parsed e = p) as Hpp by congruence. rewrite Hpp.
        rewrite decide_False by lia. eexists; split; [done|]. simpl. lia.
      * rewrite decide_False by lia. eexists; split; [done|]. simpl. lia.
  - simpl. rewrite lookup_insert_eq. simpl.
    rewrite decide_False by lia. eexists; split; [done|]. simpl; lia.
Qed.

(** X17.  Storing the same bytes again at the same instant changes nothing
    more: the second call returns what the first returned and leaves the
    cache the first left. *)
Theorem rend_cache_store_twice now d c :
  rend_cache_store now d (rend_cache_store now d c).2
  = rend_cache_store now d c.
Proof.
  destruct (rend_parse_service_descriptor d) as [p|err] eqn:Hp.
  2:{ assert (∀ c', rend_cache_store now d c' = (-1, c')) as Hrej
        by (intros; unfold rend_cache_store; by rewrite Hp).
      by rewrite !Hrej. }
  destruct (rend_get_service_id (pk p)) as [query|] eqn:Hq.
  2:{ assert (∀ c', rend_cache_store now d c' = (-1, c')) as Hrej
        by (intros; unfold rend_cache_store; by rewrite Hp, Hq).
      by rewrite !Hrej. }
  pose proof (λ c', rend_cache_store_parsed now d c' p query Hp Hq) as Hst.
  rewrite (Hst c).
  case_decide as Hold; [cbn [snd]; by rewrite Hst|].
  case_decide as Hnew; [cbn [snd]; by rewrite Hst|].
  cbv zeta in *. unfold strmap_get_lc, strmap_set_lc in *.
  assert (∀ e, len e = Z.of_nat (length d) → desc e = d → same_bytes e d)
    as Hsame' by (intros e Hl Hd; split; [done|by rewrite Hd]).
  destruct (c !! tor_strlower query) as [e|] eqn:He.
  - case_decide as Hnewer.
    { cbn [snd]. rewrite Hst, He. by rewrite decide_True by done. }
    case_decide as Hsame; cbn [snd]; rewrite Hst;
      rewrite lookup_insert_eq; cbn [parsed len desc].
    + rewrite decide_False by done.
      rewrite decide_True by (destruct Hsame; by split).
      by rewrite insert_insert_eq.
    + rewrite decide_False by lia.
      rewrite decide_True by (by apply Hsame').
      by rewrite insert_insert_eq.
  - cbn [snd]. rewrite Hst.
    rewrite lookup_insert_eq. cbn [parsed len desc].
    rewrite decide_False by lia.
    rewrite decide_True by (by apply Hsame').
    by rewrite insert_insert_eq.
Qed.

(** X18.  The newer descriptor wins in either order: two descriptors of one
    service with different timestamps, both fresh at the times of both
    calls, stored into a cache with no entry for the service, leave the
    bytes, length and parsed form of the newer one in the cache whichever
    is stored first. *)
Theorem rend_cache_store_order now1 now2 d1 d2 c p1 p2 query :
  rend_parse_service_descriptor d1 = ParseOk p1 →
  rend_parse_service_descriptor d2 = ParseOk p2 →
  rend_get_service_id (pk p1) = Some query →
  rend_get_service_id (pk p2) = Some query →
  timestamp p1 < timestamp p2 →
  now1 - 86400 <= timestamp p1 → timestamp p2 <= now1 + 5400 →
  now2 - 86400 <= timestamp p1 → timestamp p2 <= now2 + 5400 →
  strmap_get_lc c query = None →
  let older_first :=
    (rend_cache_store now2 d2 (rend_cache_store now1 d1 c).2).2 in
  let newer_first :=
    (rend_cache_store now2 d1 (rend_cache_store now1 d2 c).2).2 in
  ∃ e12 e21,
    strmap_get_lc older_first query = Some e12
    ∧ strmap_get_lc newer_first query = Some e21
    ∧ desc e12 = d2 ∧ desc e21 = d2
    ∧ len e12 = Z.of_nat (length d2) ∧ len e21 = Z.of_nat (length d2)
    ∧ parsed e12 = p2 ∧ parsed e21 = p2.
Proof.
  intros Hp1 Hp2 Hq1 Hq2 Hlt Ha1 Hb1 Ha2 Hb2 Hnone older_first newer_first.
  unfold older_first, newer_first.
  rewrite (rend_cache_store_parsed now1 _ _ _ _ Hp1 Hq1).
  rewrite (rend_cache_store_parsed now1 _ _ _ _ Hp2 Hq2).
  unfold REND_CACHE_MAX_AGE, REND_CACHE_MAX_SKEW. rewrite Hnone.
  rewrite !decide_False by lia. cbv zeta. cbn [snd].
  rewrite (rend_cache_store_parsed now2 _ _ _ _ Hp1 Hq1).
  rewrite (rend_cache_store_parsed now2 _ _ _ _ Hp2 Hq2).
  unfold REND_CACHE_MAX_AGE, REND_CACHE_MAX_SKEW.
  rewrite !decide_False by lia. cbv zeta.
  unfold strmap_get_lc, strmap_set_lc. rewrite !lookup_insert_eq.
  cbn [parsed].
  rewrite (decide_False (P := timestamp p1 > timestamp p2)) by lia.
  rewrite (decide_True (P := timestamp p2 > timestamp p1)) by lia.
  rewrite (decide_False (P := same_bytes _ d2)).
  2:{ intros Hsame. apply same_bytes_iff in Hsame; [|done].
      simpl in Hsame. subst d2. assert (p1 = p2) by congruence. subst p2. lia. }
  cbn [snd]. rewrite !lookup_insert_eq.
  by eexists _, _.
Qed.
End CacheExtras.

(** ** The dispatcher *)

(** X19.  [rend_process_relay_cell] returns for the nine rendezvous relay
    commands, whatever status the handler reports, and ends the process on
    an assertion exactly for every other command code. *)
Theorem rend_process_relay_cell_handled `{RelayCommands}
    `{RendHandlers circuit_t St}
    (circ : circuit_t) (command length : Z) (payload : list byte) (st : St) :
  is_Some (rend_process_relay_cell circ command length payload st)
  ↔ command ∈ rend_relay_commands.
Proof.
  unfold rend_process_relay_cell, rend_relay_commands.
  rewrite !elem_of_cons, elem_of_nil.
  repeat (case_decide; [split; [tauto|by eexists]|]).
  split; [by intros [? ?]|tauto].
Qed.

(** ** The further properties on concrete descriptors *)

Lemma toy_parse_ab :
  @rend_parse_service_descriptor Toy.crypto Toy.desc_ab = ParseOk Toy.parsed_ab.
Proof. reflexivity. Defined.

Lemma toy_cache_ab_wf :
  cache_wf (@rend_cache_store Toy.crypto 1000500 Toy.desc_ab ∅).2.
Proof. apply rend_cache_store_wf, rend_cache_init_wf. Defined.

Lemma rend_parse_result_wf_witness :
  @rend_parse_service_descriptor Toy.crypto Toy.desc_ab = ParseOk Toy.parsed_ab
  ∧ descriptor_wf Toy.parsed_ab
  ∧ 0 <= timestamp Toy.parsed_ab < 4294967296.
Proof.
  exact (conj toy_parse_ab
    (@rend_parse_result_wf Toy.crypto _ _ toy_parse_ab)).
Defined.

Lemma rend_parse_accepts_iff_witness :
  0 < crypto_pk_keysize (pk Toy.parsed_ab)
  ∧ ∃ asn1 sig,
      Toy.desc_ab = encode_payload Toy.parsed_ab asn1 ++ sig
      ∧ crypto_pk_asn1_decode asn1 = Some (pk Toy.parsed_ab)
      ∧ Z.of_nat (length sig) = crypto_pk_keysize (pk Toy.parsed_ab).
Proof.
  assert (0 < crypto_pk_keysize (pk Toy.parsed_ab)) as Hks by reflexivity.
  split; [exact Hks|].
  destruct (proj1 (@rend_parse_accepts_iff Toy.crypto Toy.desc_ab
                     Toy.parsed_ab Hks) toy_parse_ab)
    as (_ & _ & asn1 & sig & Hstr & _ & Hkey & Hsig & _).
  by exists asn1, sig.
Defined.

Lemma rend_parse_encode_roundtrip_witness :
  @rend_parse_service_descriptor Toy.crypto Toy.desc_ab = ParseOk Toy.parsed_ab
  ∧ @crypto_pk_asn1_encode Toy.crypto x41 (4 * 2)
    = Some (take (Z.to_nat (ntohs_get_uint16 Toy.desc_ab))
              (drop 2 Toy.desc_ab))
  ∧ @crypto_pk_private_sign_digest Toy.crypto x41 (take (24 - 4) Toy.desc_ab)
    = Some (drop (24 - 4) Toy.desc_ab)
  ∧ @rend_encode_service_descriptor Toy.crypto Toy.parsed_ab x41
    = EncodeOk Toy.desc_ab 24.
Proof.
  assert (@crypto_pk_asn1_encode Toy.crypto x41 (4 * 2)
          = Some (take (Z.to_nat (ntohs_get_uint16 Toy.desc_ab))
                    (drop 2 Toy.desc_ab))) as Hasn1 by reflexivity.
  assert (@crypto_pk_private_sign_digest Toy.crypto x41
            (take (24 - 4) Toy.desc_ab)
          = Some (drop (24 - 4) Toy.desc_ab)) as Hsign by reflexivity.
  split; [exact toy_parse_ab|]. split; [exact Hasn1|]. split; [exact Hsign|].
  exact (@rend_parse_encode_roundtrip Toy.crypto Toy.desc_ab Toy.parsed_ab
           x41 toy_parse_ab Hasn1 Hsign).
Defined.

Lemma rend_parse_bad_signature_witness :
  let sig' := [x00; x00; x00; x00] in
  @rend_parse_service_descriptor Toy.crypto Toy.desc_ab = ParseOk Toy.parsed_ab
  ∧ Z.of_nat (length sig') = crypto_pk_keysize (pk Toy.parsed_ab)
  ∧ @crypto_pk_public_checksig_digest Toy.crypto (pk Toy.parsed_ab)
      (take (24 - 4) Toy.desc_ab) sig' = false
  ∧ @rend_parse_service_descriptor Toy.crypto (take (24 - 4) Toy.desc_ab ++ sig')
    = ParseErr BadSignature.
Proof.
  intros sig'.
  assert (Z.of_nat (length sig') = crypto_pk_keysize (pk Toy.parsed_ab))
    as Hlen by reflexivity.
  assert (@crypto_pk_public_checksig_digest Toy.crypto (pk Toy.parsed_ab)
            (take (24 - 4) Toy.desc_ab) sig' = false) as Hbad by reflexivity.
  split; [exact toy_parse_ab|]. split; [exact Hlen|]. split; [exact Hbad|].
  exact (@rend_parse_bad_signature Toy.crypto Toy.desc_ab Toy.parsed_ab sig'
           toy_parse_ab Hlen Hbad).
Defined.

Lemma rend_parse_short_truncated_witness :
  (length [x00; x02; x30] < 8)%nat
  ∧ @rend_parse_service_descriptor Toy.crypto [x00; x02; x30]
    = ParseErr Truncated.
Proof.
  assert (length [x00; x02; x30] < 8)%nat as Hshort by (simpl; lia).
  exact (conj Hshort (@rend_parse_short_truncated Toy.crypto _ Hshort)).
Defined.

Lemma rend_encode_service_descriptor_output_witness :
  let d : @rend_service_descriptor_t Toy.crypto :=
    {| pk := x41 : @crypto_pk_env_t Toy.crypto;
       timestamp := 1000000; n_intro_points := 2;
       intro_points := [[x61; x6c; x69; x63; x65]; [x62; x6f; x62]] |} in
  let str :=
    [x00; x02; x30; x41; x00; x0f; x42; x40; x00; x02;
     x61; x6c; x69; x63; x65; x00; x62; x6f; x62; x00;
     x7d; xfd; x7b; x0e] in
  descriptor_wf d
  ∧ @rend_encode_service_descriptor Toy.crypto d x41 = EncodeOk str 24
  ∧ 24 = Z.of_nat (length str)
  ∧ ∃ asn1 sig a1 a0 t3 t2 t1 t0 c1 c0,
      @crypto_pk_asn1_encode Toy.crypto (pk d)
        (@crypto_pk_keysize Toy.crypto (pk d) * 2) = Some asn1
      ∧ str = [a1; a0] ++ asn1 ++ [t3; t2; t1; t0] ++ [c1; c0]
              ++ concat (map (λ ipoint, ipoint ++ [x00]) (intro_points d))
              ++ sig
      ∧ 256 * Z_of_byte a1 + Z_of_byte a0
        = Z.of_nat (length asn1) mod 65536
      ∧ 16777216 * Z_of_byte t3 + 65536 * Z_of_byte t2
        + 256 * Z_of_byte t1 + Z_of_byte t0
        = timestamp d mod 4294967296
      ∧ 256 * Z_of_byte c1 + Z_of_byte c0 = n_intro_points d
      ∧ @crypto_pk_private_sign_digest Toy.crypto x41
          (take (length str - length sig) str) = Some sig
      ∧ Z.of_nat (length sig) = @crypto_pk_keysize Toy.crypto (pk d).
Proof.
  intros d str.
  assert (descriptor_wf d) as Hwf.
  { split; [reflexivity|]. split; [reflexivity|].
    repeat constructor; discriminate. }
  assert (@rend_encode_service_descriptor Toy.crypto d x41
          = EncodeOk str 24) as Henc by reflexivity.
  split; [exact Hwf|]. split; [exact Henc|].
  exact (@rend_encode_service_descriptor_output Toy.crypto d x41 str 24
           Hwf Henc).
Defined.

Lemma rend_cache_run_clock_fresh_witness :
  let calls := [@ClockStore 1086400 1086401 Toy.desc_ab] in
  Forall (clock_within 1) calls
  ∧ (∃ e, @rend_cache_run_clock Toy.crypto calls rend_cache_init
            !! Toy.service_id = Some e
          ∧ received e - timestamp (parsed e) = 86401)
  ∧ map_Forall
      (λ _ e, timestamp (parsed e) <= received e + 5400
              ∧ received e - timestamp (parsed e) <= 86400 + 1)
      (@rend_cache_run_clock Toy.crypto calls rend_cache_init).
Proof.
  intros calls.
  assert (Forall (clock_within 1) calls) as Hcalls
    by (repeat constructor; cbn; lia).
  split; [exact Hcalls|]. split.
  - exists (Toy.entry_ab 1086401). split; reflexivity.
  - exact (@rend_cache_run_clock_fresh Toy.crypto calls 1 Hcalls).
Defined.

Lemma rend_cache_lookup_desc_served_witness :
  let c := (@rend_cache_store Toy.crypto 1000500 Toy.desc_ab ∅).2 in
  cache_wf c
  ∧ rend_cache_lookup_desc Toy.service_id c = (1, Some (Toy.desc_ab, 24))
  ∧ 24 = Z.of_nat (length Toy.desc_ab).
Proof.
  intros c.
  assert (rend_cache_lookup_desc Toy.service_id c
          = (1, Some (Toy.desc_ab, 24))) as Hhit by reflexivity.
  split; [exact toy_cache_ab_wf|]. split; [exact Hhit|].
  exact (proj1 (@rend_cache_lookup_desc_served Toy.crypto _ _ _ _
                  toy_cache_ab_wf Hhit)).
Defined.

Lemma rend_cache_store_lookup_witness :
  @rend_get_service_id Toy.crypto (pk Toy.parsed_ab) = Some Toy.service_id
  ∧ rend_valid_service_id Toy.service_id = true
  ∧ 1000500 - 86400 <= timestamp Toy.parsed_ab <= 1000500 + 5400
  ∧ rend_cache_lookup_desc Toy.service_id
      (@rend_cache_store Toy.crypto 1000500 Toy.desc_ab ∅).2
    = (1, Some (Toy.desc_ab, Z.of_nat (length Toy.desc_ab))).
Proof.
  assert (@rend_get_service_id Toy.crypto (pk Toy.parsed_ab)
          = Some Toy.service_id) as Hq by reflexivity.
  assert (rend_valid_service_id Toy.service_id = true) as Hvalid
    by reflexivity.
  assert (1000500 - 86400 <= timestamp Toy.parsed_ab <= 1000500 + 5400)
    as Hfresh by (cbn; lia).
  split; [exact Hq|]. split; [exact Hvalid|]. split; [exact Hfresh|].
  apply (@rend_cache_store_lookup Toy.crypto 1000500 Toy.desc_ab ∅
           Toy.parsed_ab Toy.service_id toy_parse_ab Hq Hvalid Hfresh).
  - apply rend_cache_init_wf.
  - intros e He. by rewrite lookup_empty in He.
Defined.

Lemma rend_cache_store_frame_witness :
  let c := (@rend_cache_store Toy.crypto 1000500 Toy.desc_ab ∅).2 in
  c !! Toy.service_id
  ≠ (∅ : gmap string (@rend_cache_entry_t Toy.crypto)) !! Toy.service_id
  ∧ ∃ p query, @rend_parse_service_descriptor Toy.crypto Toy.desc_ab
               = ParseOk p
               ∧ rend_get_service_id (pk p) = Some query
               ∧ Toy.service_id = tor_strlower query.
Proof.
  intros c.
  assert (c !! Toy.service_id
          ≠ (∅ : gmap string (@rend_cache_entry_t Toy.crypto))
              !! Toy.service_id) as Hchg.
  { assert (c !! Toy.service_id = Some (Toy.entry_ab 1000500)) as ->
      by reflexivity.
    rewrite lookup_empty. discriminate. }
  exact (conj Hchg (@rend_cache_store_frame Toy.crypto _ _ _ _ Hchg)).
Defined.

Lemma rend_cache_store_then_clean_witness :
  cache_wf (∅ : gmap string (@rend_cache_entry_t Toy.crypto))
  ∧ @rend_get_service_id Toy.crypto (pk Toy.parsed_ab) = Some Toy.service_id
  ∧ (@rend_cache_store Toy.crypto 1000500 Toy.desc_ab ∅).1 = 0
  ∧ 1086400 - 86400 <= timestamp Toy.parsed_ab
  ∧ ∃ e, rend_cache_clean 1086400
           (@rend_cache_store Toy.crypto 1000500 Toy.desc_ab ∅).2
           !! tor_strlower Toy.service_id = Some e
         ∧ timestamp Toy.parsed_ab <= timestamp (parsed e).
Proof.
  assert (@rend_get_service_id Toy.crypto (pk Toy.parsed_ab)
          = Some Toy.service_id) as Hq by reflexivity.
  assert ((@rend_cache_store Toy.crypto 1000500 Toy.desc_ab ∅).1 = 0)
    as Hacc by reflexivity.
  assert (1086400 - 86400 <= timestamp Toy.parsed_ab) as Hnow'
    by (cbn; lia).
  split; [apply rend_cache_init_wf|]. split; [exact Hq|].
  split; [exact Hacc|]. split; [exact Hnow'|].
  exact (@rend_cache_store_then_clean Toy.crypto 1000500 1086400 _ ∅ _ _
           rend_cache_init_wf toy_parse_ab Hq Hacc Hnow').
Defined.

Lemma rend_cache_store_order_witness :
  let older_first :=
    (@rend_cache_store Toy.crypto 1000600 Toy.desc_newer
       (@rend_cache_store Toy.crypto 1000500 Toy.desc_ab ∅).2).2 in
  let newer_first :=
    (@rend_cache_store Toy.crypto 1000600 Toy.desc_ab
       (@rend_cache_store Toy.crypto 1000500 Toy.desc_newer ∅).2).2 in
  timestamp Toy.parsed_ab < timestamp Toy.parsed_newer
  ∧ ∃ e12 e21,
      strmap_get_lc older_first Toy.service_id = Some e12
      ∧ strmap_get_lc newer_first Toy.service_id = Some e21
      ∧ desc e12 = Toy.desc_newer ∧ desc e21 = Toy.desc_newer.
Proof.
  intros older_first newer_first.
  assert (timestamp Toy.parsed_ab < timestamp Toy.parsed_newer) as Hlt
    by (cbn; lia).
  split; [exact Hlt|].
  destruct (@rend_cache_store_order Toy.crypto 1000500 1000600
              Toy.desc_ab Toy.desc_newer ∅ Toy.parsed_ab Toy.parsed_newer
              Toy.service_id)
    as (e12 & e21 & H12 & H21 & Hd12 & Hd21 & _);
    try reflexivity; try (cbn; lia).
  exists e12, e21. exact (conj H12 (conj H21 (conj Hd12 Hd21))).
Defined.

(** ** The return value of a store, and stores for different services *)

Section StoreExtras.
Context `{Crypto}.
Implicit Types (c : gmap string rend_cache_entry_t) (e : rend_cache_entry_t).

(** X21.  The return value of [rend_cache_store] is 0 or -1 and does not
    depend on the cache: it is 0 exactly when the bytes parse and verify,
    the service ID of their key can be computed, and the timestamp is
    within [now - 86400] and [now + 5400]. *)
Theorem rend_cache_store_return_value now d c :
  ((rend_cache_store now d c).1 = 0 ∨ (rend_cache_store now d c).1 = -1)
  ∧ ((rend_cache_store now d c).1 = 0
     ↔ ∃ p query, rend_parse_service_descriptor d = ParseOk p
                  ∧ rend_get_service_id (pk p) = Some query
                  ∧ now - 86400 <= timestamp p <= now + 5400).
Proof.
  unfold rend_cache_store, REND_CACHE_MAX_AGE, REND_CACHE_MAX_SKEW.
  destruct (rend_parse_service_descriptor d) as [p|err] eqn:Hp.
  2:{ split; [by right|]. split; [done|]. by intros (? & ? & ? & _). }
  destruct (rend_get_service_id (pk p)) as [query|] eqn:Hq.
  2:{ split; [by right|]. split; [done|].
      intros (p' & q' & [= <-] & Hq' & _). congruence. }
  case_decide as Hold.
  { split; [by right|]. split; [done|].
    intros (p' & q' & [= <-] & _ & Hw). lia. }
  case_decide as Hnew.
  { split; [by right|]. split; [done|].
    intros (p' & q' & [= <-] & _ & Hw). lia. }
  assert ((0 : Z) = 0
          ↔ ∃ p' q', ParseOk p = ParseOk p'
                     ∧ rend_get_service_id (pk p') = Some q'
                     ∧ now - 86400 <= timestamp p' <= now + 5400) as Hiff.
  { split; [|done]. intros _. exists p, query. repeat split; try done; lia. }
  destruct (strmap_get_lc c query) as [e|];
    repeat case_decide; simpl; (split; [by left|exact Hiff]).
Qed.

(** The cache after a store is the cache before it with at most the slot of
    the descriptor's service ID rewritten, as a function of that slot. *)
Lemma rend_cache_store_slot now d p query :
  rend_parse_service_descriptor d = ParseOk p →
  rend_get_service_id (pk p) = Some query →
  ∃ upd : option rend_cache_entry_t → option rend_cache_entry_t,
    ∀ c, (rend_cache_store now d c).2
         = match upd (c !! tor_strlower query) with
           | Some e' => <[tor_strlower query := e']> c
           | None => c
           end.
Proof.
  intros Hp Hq.
  set (fresh := {| len := Z.of_nat (length d); desc := d;
                   received := now; parsed := p |}).
  exists (λ slot,
    if decide (timestamp p < now - REND_CACHE_MAX_AGE) then None
    else if decide (timestamp p > now + REND_CACHE_MAX_SKEW) then None
    else match slot with
         | Some e =>
             if decide (timestamp (parsed e) > timestamp p) then None
             else if decide (same_bytes e d)
             then Some {| len := len e; desc := desc e;
                          received := now; parsed := parsed e |}
             else Some fresh
         | None => Some fresh
         end).
  intros c. rewrite (rend_cache_store_parsed _ _ _ _ _ Hp Hq).
  case_decide; [done|]. case_decide; [done|]. cbv zeta.
  unfold strmap_get_lc, strmap_set_lc.
  destruct (c !! tor_strlower query) as [e|]; [|done].
  by repeat case_decide.
Qed.

(** X22.  Stores for different services are independent: two descriptors
    whose service IDs differ beyond letter case can be stored in either
    order, each at its own time, and leave the same cache. *)
Theorem rend_cache_store_commute now1 now2 d1 d2 c p1 p2 query1 query2 :
  rend_parse_service_descriptor d1 = ParseOk p1 →
  rend_parse_service_descriptor d2 = ParseOk p2 →
  rend_get_service_id (pk p1) = Some query1 →
  rend_get_service_id (pk p2) = Some query2 →
  tor_strlower query1 ≠ tor_strlower query2 →
  (rend_cache_store now2 d2 (rend_cache_store now1 d1 c).2).2
  = (rend_cache_store now1 d1 (rend_cache_store now2 d2 c).2).2.
Proof.
  intros Hp1 Hp2 Hq1 Hq2 Hne.
  destruct (rend_cache_store_slot now1 _ _ _ Hp1 Hq1) as [upd1 H1].
  destruct (rend_cache_store_slot now2 _ _ _ Hp2 Hq2) as [upd2 H2].
  rewrite (H1 c), (H2 c), H1, H2.
  destruct (upd1 (c !! tor_strlower query1)) as [e1|] eqn:Hu1;
    destruct (upd2 (c !! tor_strlower query2)) as [e2|] eqn:Hu2;
    rewrite ?lookup_insert_ne by done; rewrite ?Hu1, ?Hu2; try done.
  by apply insert_insert_ne.
Qed.
End StoreExtras.

Lemma rend_cache_store_commute_witness :
  @rend_parse_service_descriptor Toy.crypto Toy.desc_ab = ParseOk Toy.parsed_ab
  ∧ @rend_parse_service_descriptor Toy.crypto toy_desc_other
    = ParseOk toy_parsed_other
  ∧ @rend_get_service_id Toy.crypto (pk Toy.parsed_ab) = Some Toy.service_id
  ∧ @rend_get_service_id Toy.crypto (pk toy_parsed_other)
    = Some "z3vqqjkcl56jtnwt"%string
  ∧ tor_strlower Toy.service_id ≠ tor_strlower "z3vqqjkcl56jtnwt"
  ∧ (@rend_cache_store Toy.crypto 1000600 toy_desc_other
       (@rend_cache_store Toy.crypto 1000500 Toy.desc_ab ∅).2).2
    = (@rend_cache_store Toy.crypto 1000500 Toy.desc_ab
         (@rend_cache_store Toy.crypto 1000600 toy_desc_other ∅).2).2.
Proof.
  assert (@rend_parse_service_descriptor Toy.crypto toy_desc_other
          = ParseOk toy_parsed_other) as Hp2 by reflexivity.
  assert (@rend_get_service_id Toy.crypto (pk Toy.parsed_ab)
          = Some Toy.service_id) as Hq1 by reflexivity.
  assert (@rend_get_service_id Toy.crypto (pk toy_parsed_other)
          = Some "z3vqqjkcl56jtnwt"%string) as Hq2 by reflexivity.
  assert (tor_strlower Toy.service_id ≠ tor_strlower "z3vqqjkcl56jtnwt")
    as Hne by discriminate.
  split; [exact toy_parse_ab|]. split; [exact Hp2|]. split; [exact Hq1|].
  split; [exact Hq2|]. split; [exact Hne|].
  exact (@rend_cache_store_commute Toy.crypto 1000500 1000600 _ _ ∅ _ _ _ _
           toy_parse_ab Hp2 Hq1 Hq2 Hne).
Defined.

(** X20.  Every entry of every cache reached from [rend_cache_init] by
    stores and cleanings is consistent: its [len] is the length of its
    bytes, its [parsed] is what its bytes parse and verify to, and the key it
    is filed under is the lowercase form of the service ID of its public
    key. *)
Theorem rend_cache_run_entries `{Crypto} (calls : list cache_call) :
  map_Forall
    (λ key e,
       len e = Z.of_nat (length (desc e))
       ∧ rend_parse_service_descriptor (desc e) = ParseOk (parsed e)
       ∧ ∃ id, rend_get_service_id (pk (parsed e)) = Some id
               ∧ tor_strlower id = key)
    (rend_cache_run calls rend_cache_init).
Proof.
  change (cache_wf (rend_cache_run calls rend_cache_init)).
  unfold rend_cache_run.
  generalize rend_cache_init_wf. generalize rend_cache_init.
  induction calls as [|call calls IH]; intros c Hwf; [done|].
  apply IH. destruct call; simpl.
  - by apply rend_cache_store_wf.
  - by apply rend_cache_clean_wf.
Qed.
